(** * dashboard_app.py: the league dashboard, embedded and verified

    The dashboard reads tables of match statistics from CSV files, merges
    the tables of the selected leagues, reorders and formats the columns,
    and shows a highlighted table with two summary figures.  This file
    embeds the functions of [dashboard_app.py] and the pandas and Streamlit
    operations they call, and proves the properties of the design document
    about them.

    Conventions of the embedding:
    - a [pathlib.Path] is the list of its components;
    - a Python [dict] is an association list in insertion order;
    - a [DataFrame] is an object in a store, reached through a reference,
      so that [df.copy()] and [df[col] = v] keep their difference;
    - a float is a binary64 number of [SpecFloat];
    - the script's effects (warnings, [st.stop()], exceptions, file reads)
      are threaded through a state and error monad. *)

From Stdlib Require Import ZArith SpecFloat Ascii.
From stdpp Require Import base option list sorting strings pretty gmap fin_maps.

Open Scope Z_scope.
Open Scope stdpp_scope.

(* ===================================================================== *)
(** * Part I: definitions                                                 *)
(* ===================================================================== *)

(** ** Strings *)

Module Str.

(** [s.endswith(suffix)] *)
Fixpoint endswith (s suffix : string) : bool :=
  bool_decide (s = suffix) ||
  match s with
  | EmptyString => false
  | String _ s' => endswith s' suffix
  end.

(** [s[-1]], when there is one *)
Fixpoint last_char (s : string) : option Ascii.ascii :=
  match s with
  | EmptyString => None
  | String a EmptyString => Some a
  | String _ s' => last_char s'
  end.

(** [s.replace(a, "")] for a single character *)
Fixpoint remove_char (a : Ascii.ascii) (s : string) : string :=
  match s with
  | EmptyString => EmptyString
  | String c s' =>
      if decide (c = a) then remove_char a s' else String c (remove_char a s')
  end.

(** [s.isdigit()], true also on the empty string *)
Fixpoint all_digits (s : string) : bool :=
  match s with
  | EmptyString => true
  | String c s' => bool_decide (is_Some (Ascii.is_nat c)) && all_digits s'
  end.

(** [s1 in l] for a list of strings *)
Definition mem (s : string) (l : list string) : bool := bool_decide (s ∈ l).

End Str.

(** ** Paths and directories *)

(** A path is the list of its components, as [PurePath.parts] has them. *)
Abbreviation Path := (list string) (only parsing).

Module PathOps.

(** [p / s] *)
Definition joinpath (p : Path) (s : string) : Path := p ++ [s].

(** [p.name]: the last component *)
Definition name (p : Path) : string := List.last p "".

(** Paths compare as the lists of their components, component by
    component, each as a string: the order [sorted] uses. *)
Fixpoint leb (p q : Path) : bool :=
  match p, q with
  | [], _ => true
  | _ :: _, [] => false
  | a :: p', b :: q' =>
      if decide (a = b) then leb p' q' else String.leb a b
  end.

Definition le (p q : Path) : Prop := leb p q.

End PathOps.

Infix "/:" := PathOps.joinpath (at level 40, left associativity).

(** One entry of a directory: its name and whether [is_dir()] holds. *)
Record dirent := Dirent { d_name : string; d_is_dir : bool }.

(** ** Python dictionaries, in insertion order *)

Module Dict.

Abbreviation t V := (list (string * V)).

Section dict.
Context {V : Type}.

Definition keys (d : t V) : list string := d.*1.

(** [d[k]], [None] standing for the KeyError *)
Fixpoint get (k : string) (d : t V) : option V :=
  match d with
  | [] => None
  | (k', v) :: d' => if decide (k = k') then Some v else get k d'
  end.

(** [d[k] = v]: a present key keeps its place, a new one goes last. *)
Fixpoint set (k : string) (v : V) (d : t V) : t V :=
  match d with
  | [] => [(k, v)]
  | (k', v') :: d' =>
      if decide (k = k') then (k, v) :: d' else (k', v') :: set k v d'
  end.
End dict.

End Dict.

(** ** League Catalog Resolver *)

(** [sorted(paths)] *)
Definition sorted_paths (l : list Path) : list Path := merge_sort PathOps.le l.

(** [get_available_leagues(base_path)], the directory's entries being [ls]
    in the order [iterdir()] yields them.  [glob("*.csv")] keeps the
    entries whose name ends in [.csv]. *)
Definition get_available_leagues (base_path : Path) (ls : list dirent)
  : Dict.t Path :=
  let subfolders :=
    (λ e, base_path /: d_name e) <$> filter (λ e, d_is_dir e = true) ls in
  match subfolders with
  | _ :: _ =>
      foldl (λ leagues child, Dict.set (PathOps.name child) child leagues)
            [] (sorted_paths subfolders)
  | [] =>
      let csv_files :=
        (λ e, base_path /: d_name e)
          <$> filter (λ e, Str.endswith (d_name e) ".csv" = true) ls in
      match csv_files with
      | _ :: _ => Dict.set "default" base_path []
      | [] => []
      end
  end.

(** ** binary64 numbers

    pandas keeps percentages as float64.  [SpecFloat] gives the IEEE 754
    operations; the two operations NumPy adds are [rint] and the decimal
    rounding built from it. *)

Module F64.

Definition prec : Z := 53.
Definition emax : Z := 1024.

Definition nan : spec_float := S754_nan.
Definition zero : spec_float := S754_zero false.

(** [float(z)] for an integer *)
Definition of_Z (z : Z) : spec_float := binary_normalize prec emax z 0 false.

Definition add : spec_float → spec_float → spec_float := SFadd prec emax.
Definition mul : spec_float → spec_float → spec_float := SFmul prec emax.
Definition div : spec_float → spec_float → spec_float := SFdiv prec emax.

(** [x == y] and [x < y] of IEEE 754: false as soon as one side is NaN *)
Definition eqb : spec_float → spec_float → bool := SFeqb.
Definition ltb : spec_float → spec_float → bool := SFltb.

Definition is_nan (x : spec_float) : bool :=
  match x with S754_nan => true | _ => false end.

(** The decimal literal [m / 10^k], as Python reads it: the binary64
    nearest to the quotient (both operands are exact for the sizes used
    here, and the division rounds correctly). *)
Definition dec (m : Z) (k : nat) : spec_float :=
  div (of_Z m) (of_Z (10 ^ Z.of_nat k)).

(** [np.rint(x)]: the nearest integer, ties to the even one, the sign
    kept on a zero result. *)
Definition rint (x : spec_float) : spec_float :=
  match x with
  | S754_finite s m e =>
      if 0 <=? e then x
      else
        let mrs := fst (shr (shr_record_of_loc (Zpos m) loc_Exact) e (- e)) in
        let k := round_nearest_even (shr_m mrs) (loc_of_shr_record mrs) in
        binary_normalize prec emax (cond_Zopp s k) 0 s
  | _ => x
  end.

(** [np.round(x, 2)], which NumPy computes as [rint(x * 100) / 100] *)
Definition round2 (x : spec_float) : spec_float :=
  div (rint (mul x (of_Z 100))) (of_Z 100).

(** [int(x)]: truncation towards zero; [None] for NaN and the infinities,
    on which Python raises. *)
Definition to_int (x : spec_float) : option Z :=
  match x with
  | S754_zero _ => Some 0
  | S754_finite s m e =>
      Some (cond_Zopp s (if 0 <=? e then Zpos m * 2 ^ e
                         else Zpos m `div` 2 ^ (- e)))
  | _ => None
  end.

(** The sum of the values that are not NaN, from the left.  Missing
    values count as zero, as in [nansum]. *)
Definition nansum (xs : list spec_float) : spec_float :=
  foldl (λ acc x, add acc (if is_nan x then zero else x)) zero xs.

Definition count_valid (xs : list spec_float) : nat :=
  length (filter (λ x, is_nan x = false) xs).

(** [nanmean]: the sum over the count; NaN when nothing is left. *)
Definition nanmean (xs : list spec_float) : spec_float :=
  div (nansum xs) (of_Z (Z.of_nat (count_valid xs))).

(** [nanmax]: the largest value that is not NaN; NaN when there is none. *)
Definition nanmax (xs : list spec_float) : spec_float :=
  foldl (λ acc x,
           if is_nan x then acc
           else if is_nan acc then x
           else if ltb acc x then x else acc)
        nan xs.

End F64.

(** int64 arithmetic wraps around. *)
Definition wrap64 (z : Z) : Z := (z + 2 ^ 63) `mod` 2 ^ 64 - 2 ^ 63.

(** ** Cells, columns and tables *)

(** A cell of a table read from CSV: an integer, a float (NaN is the
    missing value), or text that is not a number. *)
Inductive cell :=
  | CInt (z : Z)
  | CFloat (x : spec_float)
  | CStr (s : string).

Global Instance spec_float_eq_dec : EqDecision spec_float.
Proof. solve_decision. Defined.
Global Instance cell_eq_dec : EqDecision cell.
Proof. solve_decision. Defined.

(** The dtype pandas gives a column follows from its cells: int64 when all
    are integers, float64 when all are numbers, object otherwise.  In a
    float64 column an integer cell stands for its float. *)
Inductive dtype := int64 | float64 | object.

Module Series.

Definition is_int (c : cell) : bool :=
  match c with CInt _ => true | _ => false end.
Definition is_num (c : cell) : bool :=
  match c with CStr _ => false | _ => true end.

Definition dtype_of (s : list cell) : dtype :=
  if forallb is_int s then int64
  else if forallb is_num s then float64
  else object.

Definition to_float (c : cell) : option spec_float :=
  match c with
  | CInt z => Some (F64.of_Z z)
  | CFloat x => Some x
  | CStr _ => None
  end.

Definition to_Z (c : cell) : Z :=
  match c with CInt z => z | _ => 0 end.

(** [s.astype(float)], [None] standing for the ValueError on text *)
Definition astype_float (s : list cell) : option (list spec_float) :=
  mapM to_float s.

(** [s.round(2)] on a float64 column *)
Definition round2 (xs : list spec_float) : list cell :=
  (λ x, CFloat (F64.round2 x)) <$> xs.

(** [s.mean()], [None] standing for the TypeError on an object column *)
Definition mean (s : list cell) : option spec_float :=
  F64.nanmean <$> astype_float s.

(** [s.sum()]: an int64 sum wraps around, a float64 sum skips NaN;
    [None] on an object column. *)
Definition sum (s : list cell) : option cell :=
  match dtype_of s with
  | int64 => Some (CInt (wrap64 (foldr Z.add 0 (to_Z <$> s))))
  | float64 => (λ xs, CFloat (F64.nansum xs)) <$> astype_float s
  | object => None
  end.

(** [s == s.max()], row by row; [None] on an object column.  The largest
    integer of a non-empty int64 column is exact. *)
Definition eq_max (s : list cell) : option (list bool) :=
  match dtype_of s, s with
  | int64, c :: s' =>
      let m := foldr Z.max (to_Z c) (to_Z <$> s') in
      Some ((λ c, bool_decide (to_Z c = m)) <$> s)
  | object, _ => None
  | _, _ =>
      (λ xs, (λ x, F64.eqb x (F64.nanmax xs)) <$> xs) <$> astype_float s
  end.

End Series.

(** A table: its number of rows and its labelled columns, in order. *)
Record DataFrame := Frame { nrows : nat; cols : Dict.t (list cell) }.

Module DF.

(** [df.columns] *)
Definition columns (df : DataFrame) : list string := Dict.keys (cols df).

(** [df.empty]: no row or no column *)
Definition empty (df : DataFrame) : bool :=
  match nrows df, cols df with
  | O, _ | _, [] => true
  | _, _ => false
  end.

(** [df[c]] *)
Definition getitem (c : string) (df : DataFrame) : option (list cell) :=
  Dict.get c (cols df).

(** [df[c] = s]: an existing column is replaced where it stands, a new
    one is added last. *)
Definition setitem (c : string) (s : list cell) (df : DataFrame) : DataFrame :=
  Frame (nrows df) (Dict.set c s (cols df)).

(** [df[c] = v] for a scalar [v], repeated on every row *)
Definition setitem_scalar (c : string) (v : cell) (df : DataFrame) : DataFrame :=
  setitem c (replicate (nrows df) v) df.

(** [df[labels]]: the columns bearing each label, label after label;
    [None] standing for the KeyError on a label the table lacks. *)
Definition take (labels : list string) (df : DataFrame) : option DataFrame :=
  if forallb (λ l, Str.mem l (columns df)) labels
  then Some (Frame (nrows df)
               (flat_map (λ l, filter (λ c, c.1 = l) (cols df)) labels))
  else None.

(** The labels of several tables, each once, in order of first
    appearance. *)
Definition union_labels (dfs : list DataFrame) : list string :=
  foldl (λ acc l, if Str.mem l acc then acc else acc ++ [l])
        [] (flat_map columns dfs).

(** [pd.concat(dfs, ignore_index=True)]: rows stacked, a column a table
    lacks filled with NaN on that table's rows. *)
Definition concat (dfs : list DataFrame) : DataFrame :=
  Frame (sum_list (nrows <$> dfs))
    ((λ l, (l, flat_map
                 (λ df, default (replicate (nrows df) (CFloat F64.nan))
                                (getitem l df))
                 dfs))
       <$> union_labels dfs).


End DF.

(** ** The world the script runs in *)

(** What the page is asked to show, in order. *)
Inductive ui_event :=
  | SidebarWarning (msg : string)
  | Warning (msg : string)
  | Error (msg : string)
  | Info (msg : string)
  | Table (data : DataFrame) (css : Dict.t (list string))
  | Metric (label value : string)
  | Means (summary : option (Dict.t spec_float)).

(** - [disk]: the files that exist, each with the table [pd.read_csv]
      parses from it;
    - [heap]: the DataFrame objects, by reference;
    - [cache]: the entries of [st.cache_data] for [load_csv];
    - [reads]: the calls of [pd.read_csv] so far;
    - [page]: the page so far. *)
Record world := World {
  disk : gmap (list string) DataFrame;
  heap : gmap nat DataFrame;
  cache : gmap (list string) DataFrame;
  reads : list (list string);
  page : list ui_event
}.

Inductive exn :=
  | FileNotFoundError | KeyError | ValueError | TypeError | OverflowError.

Global Instance exn_eq_dec : EqDecision exn.
Proof. solve_decision. Defined.

(** A computation returns, raises, or ends the run with [st.stop()]. *)
Inductive outcome (A : Type) :=
  | Ok (a : A)
  | Raise (e : exn)
  | Stop.
Global Arguments Ok {A} a.
Global Arguments Raise {A} e.
Global Arguments Stop {A}.

Definition M (A : Type) : Type := world → outcome A * world.

Global Instance M_ret : MRet M := λ A a w, (Ok a, w).

Global Instance M_bind : MBind M := λ A B f m w,
  match m w with
  | (Ok a, w') => f a w'
  | (Raise e, w') => (Raise e, w')
  | (Stop, w') => (Stop, w')
  end.

Module Py.

Definition raise {A} (e : exn) : M A := λ w, (Raise e, w).

(** [try: body except e: handler] *)
Definition try_except {A} (body : M A) (e : exn) (handler : M A) : M A :=
  λ w,
    match body w with
    | (Raise e', w') => if decide (e' = e) then handler w' else (Raise e', w')
    | r => r
    end.

(** [None] raises [e]. *)
Definition or_raise {A} (e : exn) (o : option A) : M A :=
  match o with Some a => mret a | None => raise e end.

(** A new object *)
Definition alloc (df : DataFrame) : M nat := λ w,
  let r := fresh (dom (heap w)) in
  (Ok r, World (disk w) (<[r := df]> (heap w)) (cache w) (reads w) (page w)).

(** The object behind a reference *)
Definition deref (r : nat) : M DataFrame := λ w,
  (Ok (default (Frame 0 []) (heap w !! r)), w).

(** A change of the object behind a reference, in place *)
Definition mutate (r : nat) (f : DataFrame → DataFrame) : M () := λ w,
  (Ok (), World (disk w) (alter f r (heap w)) (cache w) (reads w) (page w)).

(** [df.copy()] *)
Definition copy (r : nat) : M nat := df ← deref r; alloc df.

(** [str.replace(a, b)] for single characters *)
Fixpoint replace_char (a b : Ascii.ascii) (s : string) : string :=
  match s with
  | EmptyString => EmptyString
  | String c s' => String (if decide (c = a) then b else c) (replace_char a b s')
  end.

(** The digits of a natural number with a comma before every group of
    three: the [,] option of the format mini-language. *)
Fixpoint commas (digits : string) : string :=
  match digits with
  | EmptyString => EmptyString
  | String c rest =>
      let n := String.length rest in
      String c (if bool_decide (n ≠ 0%nat ∧ (n `mod` 3 = 0)%nat)
                then String ","%char (commas rest) else commas rest)
  end.

(** [f"{z:,}"] *)
Definition format_commas (z : Z) : string :=
  (if bool_decide (z < 0) then "-" else "") +:+ commas (pretty (Z.abs_N z)).

(** [int(v)] for a NumPy scalar *)
Definition int (v : cell) : M Z :=
  match v with
  | CInt z => mret z
  | CFloat S754_nan => raise ValueError
  | CFloat x => or_raise OverflowError (F64.to_int x)
  | CStr _ => raise ValueError
  end.

End Py.

Module St.

Definition emit (e : ui_event) : M () := λ w,
  (Ok (), World (disk w) (heap w) (cache w) (reads w) (page w ++ [e])).

Definition sidebar_warning (msg : string) : M () := emit (SidebarWarning msg).
Definition warning (msg : string) : M () := emit (Warning msg).
Definition error (msg : string) : M () := emit (Error msg).
Definition info (msg : string) : M () := emit (Info msg).
Definition metric (label value : string) : M () := emit (Metric label value).

(** [st.stop()] *)
Definition stop {A} : M A := λ w, (Stop, w).

(** [@st.cache_data]: the value of a call is stored under its argument;
    a later call with the same argument does not run the function and
    gets a new copy of the stored value.  A call that raises stores
    nothing. *)
Definition cache_data (f : list string → M nat) (key : list string) : M nat :=
  λ w,
    match cache w !! key with
    | Some v => Py.alloc v w
    | None =>
        match f key w with
        | (Ok r, w') =>
            (Ok r,
             World (disk w') (heap w')
                   (<[key := default (Frame 0 []) (heap w' !! r)]> (cache w'))
                   (reads w') (page w'))
        | other => other
        end
    end.

End St.

Module Pd.

(** [pd.read_csv(path)] on an existing file *)
Definition read_csv (path : list string) : M nat := λ w,
  match disk w !! path with
  | Some table =>
      Py.alloc table
        (World (disk w) (heap w) (cache w) (reads w ++ [path]) (page w))
  | None => (Raise FileNotFoundError, w)
  end.

(** [path.exists()] *)
Definition exists_ (path : list string) : M bool := λ w,
  (Ok (bool_decide (is_Some (disk w !! path))), w).

(** [pd.concat(dfs, ignore_index=True)] *)
Definition concat (dfs : list nat) : M nat :=
  tables ← mapM Py.deref dfs;
  Py.alloc (DF.concat tables).

(** [df[labels]] *)
Definition take (df : nat) (labels : list string) : M nat :=
  d ← Py.deref df;
  d' ← Py.or_raise KeyError (DF.take labels d);
  Py.alloc d'.

End Pd.

(** ** dashboard_app.py: the functions *)

(** [for x in l: body(x)] *)
Fixpoint for_each {A} (l : list A) (body : A → M ()) : M () :=
  match l with
  | [] => mret ()
  | x :: l' => body x;; for_each l' body
  end.

(** [for x in l: s = body(s, x)], for a loop that updates a local [s] *)
Fixpoint for_fold {A S} (l : list A) (s : S) (body : S → A → M S) : M S :=
  match l with
  | [] => mret s
  | x :: l' => s' ← body s x; for_fold l' s' body
  end.

(** [load_csv], the function under the decorator *)
Definition load_csv_body (path : list string) : M nat :=
  found ← Pd.exists_ path;
  if negb found then Py.raise FileNotFoundError
  else
    df ← Pd.read_csv path;
    mret df.

(** [load_csv], as the script calls it *)
Definition load_csv : list string → M nat := St.cache_data load_csv_body.

Definition format_percentage_columns (df : nat) : M nat :=
  d ← Py.deref df;
  let pct_cols :=
    filter (λ col, Str.endswith col "_percentage" = true) (DF.columns d) in
  df_formatted ← Py.copy df;
  for_each pct_cols (λ col,
    cur ← Py.deref df_formatted;
    s ← Py.or_raise KeyError (DF.getitem col cur);
    xs ← Py.or_raise ValueError (Series.astype_float s);
    Py.mutate df_formatted (DF.setitem col (Series.round2 xs)));;
  mret df_formatted.

Definition highlight_css : string := "background-color: #c8e6c9; font-weight: bold".

(** [highlight_max], the function local to [render_table]; the column
    comes with its name, as a Series does. *)
Definition highlight_max (highlight_cols : list string)
    (name : string) (s : list cell) : option (list string) :=
  if Str.mem name highlight_cols then
    match Series.eq_max s with
    | Some is_max =>
        Some ((λ val : bool, if val then highlight_css else "") <$> is_max)
    | None => None
    end
  else Some ((λ _, "") <$> s).

(** [df.style.apply(f, axis=0)]: the function is applied to every column
    and returns one style per row. *)
Definition style_apply (f : string → list cell → option (list string))
    (d : DataFrame) : option (Dict.t (list string)) :=
  mapM (λ c, pair c.1 <$> f c.1 c.2) (cols d).

Definition render_table (df : nat) (selected_outcomes : list string) : M () :=
  d ← Py.deref df;
  if DF.empty d then
    St.info "Nessun dato disponibile per la selezione corrente."
  else
    df_display ← format_percentage_columns df;
    let highlight_cols :=
      (λ outcome, outcome +:+ "_percentage") <$> selected_outcomes in
    shown ← Py.deref df_display;
    styled ← Py.or_raise TypeError (style_apply (highlight_max highlight_cols) shown);
    St.emit (Table shown styled).

Definition compute_summary_metrics (df : nat) (selected_outcomes : list string)
  : M (option (Dict.t spec_float)) :=
  d ← Py.deref df;
  if DF.empty d then mret None
  else
    summaries ←
      for_fold selected_outcomes ([] : Dict.t spec_float)
        (λ summaries outcome,
           let col := outcome +:+ "_percentage" in
           if Str.mem col (DF.columns d) then
             s ← Py.or_raise KeyError (DF.getitem col d);
             m ← Py.or_raise TypeError (Series.mean s);
             mret (Dict.set outcome m summaries)
           else mret summaries);
    mret (match summaries with
          | [] => None
          | _ => Some (prod_map id F64.round2 <$> summaries)
          end).

(** ** dashboard_app.py: the script *)

(** The granularity chosen in the sidebar *)
Inductive analysis_type := Stagione | Giornata.

Definition analysis_file (t : analysis_type) : string :=
  match t with
  | Stagione => "analisi_stagioni.csv"
  | Giornata => "analisi_giornate.csv"
  end.

(** The loop over the selected leagues; [dfs] is the list built so far. *)
Fixpoint load_selected (available_leagues : Dict.t (list string))
    (t : analysis_type) (selected_leagues : list string) (dfs : list nat)
  : M (list nat) :=
  match selected_leagues with
  | [] => mret dfs
  | league :: rest =>
      league_path ← Py.or_raise KeyError (Dict.get league available_leagues);
      let csv_path := league_path /: analysis_file t in
      loaded ←
        Py.try_except (df ← load_csv csv_path; mret (Some df)) FileNotFoundError
          (St.warning ("File '" +:+ analysis_file t
                       +:+ "' non trovato per la lega " +:+ league +:+ ".");;
           mret None);
      match loaded with
      | None => load_selected available_leagues t rest dfs
      | Some df =>
          Py.mutate df (DF.setitem_scalar "league" (CStr league));;
          load_selected available_leagues t rest (dfs ++ [df])
      end
  end.

(** Lines 140 to 159: the Selection Merger *)
Definition merge_selection (available_leagues : Dict.t (list string))
    (t : analysis_type) (selected_leagues : list string) : M nat :=
  dfs ← load_selected available_leagues t selected_leagues [];
  match dfs with
  | [] =>
      St.error "Nessun dato disponibile con le selezioni effettuate.";;
      St.stop
  | _ => Pd.concat dfs
  end.

(** Lines 161 to 173: the order of the columns *)
Definition id_cols (t : analysis_type) : list string :=
  match t with
  | Stagione => ["league"] ++ ["season"]
  | Giornata => ["league"] ++ ["season"; "round"]
  end.

Definition order_cols (t : analysis_type) (selected_outcomes : list string)
  : list string :=
  id_cols t
  ++ ((λ outcome, outcome +:+ "_count") <$> selected_outcomes)
  ++ ((λ outcome, outcome +:+ "_percentage") <$> selected_outcomes).

Definition available_cols (t : analysis_type) (selected_outcomes : list string)
    (columns : list string) : list string :=
  filter (λ col, col ∈ columns) (order_cols t selected_outcomes).

Definition extra_cols (t : analysis_type) (selected_outcomes : list string)
    (columns : list string) : list string :=
  filter (λ col, col ∉ available_cols t selected_outcomes columns) columns.

Definition column_order (t : analysis_type) (selected_outcomes : list string)
    (columns : list string) : list string :=
  available_cols t selected_outcomes columns
  ++ extra_cols t selected_outcomes columns.

(** Line 174 *)
Definition reorder_columns (t : analysis_type) (selected_outcomes : list string)
    (data : nat) : M nat :=
  d ← Py.deref data;
  Pd.take data (column_order t selected_outcomes (DF.columns d)).

(** Line 184 *)
Definition total_matches_of (data : nat) : M (option cell) :=
  d ← Py.deref data;
  if Str.mem "total_matches" (DF.columns d) then
    s ← Py.or_raise KeyError (DF.getitem "total_matches" d);
    total ← Py.or_raise TypeError (Series.sum s);
    mret (Some total)
  else mret None.

(** Lines 189 to 193 *)
Definition show_total_matches (total_matches : option cell) : M () :=
  match total_matches with
  | Some v =>
      z ← Py.int v;
      St.metric "Partite analizzate"
        (Py.replace_char "," "." (Py.format_commas z))
  | None => St.metric "Partite analizzate" "Dato non disponibile"
  end.

(** The script from line 108 on, for the entries [ls] of the analysis
    directory and the choices made in the sidebar.  The page's title, its
    headers and the wording of the list of means are left out. *)
Definition main (base : list string) (ls : list dirent)
    (selected_leagues : list string) (t : analysis_type)
    (selected_outcomes : list string) : M () :=
  let available_leagues := get_available_leagues base ls in
  match available_leagues with
  | [] =>
      St.sidebar_warning "Nessuna lega trovata nella cartella di analisi. Esegui il modulo prima di aprire la dashboard.";;
      St.stop
  | _ =>
  match selected_leagues with
  | [] =>
      St.info "Seleziona almeno una lega/coppa dalla sidebar per continuare.";;
      St.stop
  | _ =>
  match selected_outcomes with
  | [] =>
      St.info "Seleziona almeno un esito dalla sidebar per continuare.";;
      St.stop
  | _ =>
      data ← merge_selection available_leagues t selected_leagues;
      data ← reorder_columns t selected_outcomes data;
      render_table data selected_outcomes;;
      total_matches ← total_matches_of data;
      summary ← compute_summary_metrics data selected_outcomes;
      show_total_matches total_matches;;
      St.emit (Means summary)
  end end end.

(** ** Vocabulary of the statements *)

(** The table the loader serves for a path: the memoized one if there is
    one, else the file's; [None] when the loader has neither. *)
Definition source (w : world) (path : list string) : option DataFrame :=
  match cache w !! path with
  | Some v => Some v
  | None => disk w !! path
  end.

(** A session starts with nothing loaded. *)
Definition fresh_session (files : gmap (list string) DataFrame) : world :=
  World files ∅ ∅ [] [].

(** The world after the loader served the requests [reqs] in turn. *)
Definition after_loads (reqs : list (list string)) (w : world) : world :=
  foldl (λ w path, (load_csv path w).2) w reqs.

(** The file the merge asks for on behalf of a league, and the table the
    loader has for it *)
Definition league_file (available_leagues : Dict.t (list string))
    (t : analysis_type) (league : string) : option (list string) :=
  (λ league_path, league_path /: analysis_file t)
    <$> Dict.get league available_leagues.

Definition league_table (w : world) (available_leagues : Dict.t (list string))
    (t : analysis_type) (league : string) : option DataFrame :=
  league_file available_leagues t league ≫= source w.

(** A league's table with its [league] column *)
Definition tagged (league : string) (table : DataFrame) : DataFrame :=
  DF.setitem_scalar "league" (CStr league) table.

Definition missing_warning (t : analysis_type) (league : string) : ui_event :=
  Warning ("File '" +:+ analysis_file t
           +:+ "' non trovato per la lega " +:+ league +:+ ".").

(** The tables the merge collects and the warnings it gives, both in the
    order of the selection *)
Definition loaded (w : world) (available_leagues : Dict.t (list string))
    (t : analysis_type) (selected_leagues : list string)
  : list (string * DataFrame) :=
  omap (λ league, pair league <$> league_table w available_leagues t league)
       selected_leagues.

Definition collected (w : world) (available_leagues : Dict.t (list string))
    (t : analysis_type) (selected_leagues : list string) : list DataFrame :=
  (λ lt, tagged lt.1 lt.2) <$> loaded w available_leagues t selected_leagues.

Definition warnings (w : world) (available_leagues : Dict.t (list string))
    (t : analysis_type) (selected_leagues : list string) : list ui_event :=
  omap (λ league,
          match league_table w available_leagues t league with
          | None => Some (missing_warning t league)
          | Some _ => None
          end)
       selected_leagues.

Definition no_data_error : ui_event :=
  Error "Nessun dato disponibile con le selezioni effettuate.".

Definition is_table (e : ui_event) : bool :=
  match e with Table _ _ => true | _ => false end.

(** The loader's contract as the design document words it for callers,
    read on the merge of one league: the table object the loader returned
    is, after the merge, what it was when the loader returned it. *)
Definition merge_keeps_loaded_table (w : world)
    (available_leagues : Dict.t (list string)) (t : analysis_type)
    (league : string) : Prop :=
  ∀ path r w1,
    league_file available_leagues t league = Some path →
    load_csv path w = (Ok r, w1) →
    heap (load_selected available_leagues t [league] [] w).2 !! r = heap w1 !! r.

(** ** Sample data *)

Module Sample.

(** One season of a league: 20 matches, 10 of them over 2.5 goals *)
Definition season_2023 : DataFrame :=
  Frame 1 [("season", [CInt 2023]);
           ("over_25_count", [CInt 10]);
           ("over_25_percentage", [CFloat (F64.dec 500 1)]);
           ("total_matches", [CInt 20])].

Definition base : list string := ["data"].

(** Two league directories and a stray CSV file next to them *)
Definition listing : list dirent :=
  [Dirent "SerieB" true; Dirent "notes.csv" false; Dirent "SerieA" true].

Definition leagues : Dict.t (list string) := get_available_leagues base listing.

(** Both leagues have their season file. *)
Definition both_files : gmap (list string) DataFrame :=
  {[ ["data"; "SerieA"; "analisi_stagioni.csv"] := season_2023;
     ["data"; "SerieB"; "analisi_stagioni.csv"] := season_2023 ]}.

(** Two rows whose over-2.5 percentages, 55.0 and 56.0, average 55.5 *)
Definition two_rows : DataFrame :=
  Frame 2 [("league", [CStr "SerieA"; CStr "SerieA"]);
           ("season", [CInt 2022; CInt 2023]);
           ("over_25_percentage", [CFloat (F64.dec 550 1); CFloat (F64.dec 560 1)])].

(** A session that holds [two_rows] as its only table, at reference 0 *)
Definition with_two_rows : world := World ∅ {[0%nat := two_rows]} ∅ [] [].


(** Only SerieA has its season file. *)
Definition only_a : gmap (list string) DataFrame :=
  {[ ["data"; "SerieA"; "analisi_stagioni.csv"] := season_2023 ]}.

Definition file_a : list string := ["data"; "SerieA"; "analisi_stagioni.csv"].

End Sample.

(** The preferred order of the Column Orderer, as the design document
    words it *)
Definition preferred (t : analysis_type) (selected_outcomes : list string)
  : list string :=
  ["league"; "season"]
  ++ match t with Giornata => ["round"] | Stagione => [] end
  ++ ((λ outcome, outcome +:+ "_count") <$> selected_outcomes)
  ++ ((λ outcome, outcome +:+ "_percentage") <$> selected_outcomes).

(** The floats of a numeric column ([[]] for an object column) *)
Definition floats (s : list cell) : list spec_float :=
  default [] (Series.astype_float s).

Definition is_pct (col : string) : bool := Str.endswith col "_percentage".

(** A column as the formatter leaves it *)
Definition formatted_column (c : string * list cell) : string * list cell :=
  (c.1, if is_pct c.1 then Series.round2 (floats c.2) else c.2).

(** A table as the formatter leaves it *)
Definition formatted (d : DataFrame) : DataFrame :=
  Frame (nrows d) (formatted_column <$> cols d).

(** Every percentage column holds numbers. *)
Definition numeric_pct (d : DataFrame) : Prop :=
  Forall (λ c, is_pct c.1 = true → Forall (λ v, Series.is_num v = true) c.2)
         (cols d).

(** The styles the table shows on one column: on a highlighted column a
    row is marked when its value equals the largest of the column, and no
    row of another column is marked. *)
Definition column_styles (highlight_cols : list string)
    (c : string * list cell) : list string :=
  if decide (c.1 ∈ highlight_cols) then
    (λ x, if F64.eqb x (F64.nanmax (floats c.2)) then highlight_css else "")
      <$> floats c.2
  else (λ _, "") <$> c.2.



(** The count as the page shows it: digits in groups of three, with dots *)
Definition dotted (z : Z) : string :=
  Py.replace_char "," "." (Py.format_commas z).


(** The memo holds only files that are on disk: what holds as long as no
    file is removed during the session. *)
Definition memo_of_existing_files (w : world) : Prop :=
  ∀ path, is_Some (cache w !! path) → is_Some (disk w !! path).

(** ** The sidebar's defaults and further vocabulary *)

(** Lines 114 to 118: the leagues selected when the page opens,
    [list(available_leagues.keys())[:1]] *)
Definition default_leagues (available_leagues : Dict.t (list string))
  : list string :=
  take 1 (Dict.keys available_leagues).

(** A computation every run of which takes the world to one that [R]
    relates to it *)
Definition respects (R : relation world) {A} (m : M A) : Prop :=
  ∀ w, R w (m w).2.

(** From [w] to [w'] the files are left alone and the loader serves what
    it served. *)
Definition files_kept (w w' : world) : Prop :=
  disk w' = disk w ∧ ∀ path, source w' path = source w path.

(** The loader's books are in order: the files parsed so far are the
    entries of the memo, each parsed once. *)
Definition coherent (w : world) : Prop :=
  (∀ p, p ∈ reads w ↔ is_Some (cache w !! p)) ∧ NoDup (reads w).

(** From [w] to [w'] the files are left alone, the books stay in order,
    and what was parsed in between is an existing file among [may_load]. *)
Definition reads_grow (may_load : list string → Prop) (w w' : world) : Prop :=
  disk w' = disk w
  ∧ (coherent w →
     coherent w'
     ∧ ∀ p, p ∈ reads w' → p ∈ reads w ∨ (may_load p ∧ is_Some (disk w !! p))).

(** The analysis file of a league selected in one of the renders, at the
    granularity of that render *)
Definition selected_file (base : list string) (ls : list dirent)
    (choices : list (list string * analysis_type * list string))
    (path : list string) : Prop :=
  ∃ c league,
    c ∈ choices ∧ league ∈ c.1.1
    ∧ league_file (get_available_leagues base ls) c.1.2 league = Some path.


(** The world after the script ran once for each of the given choices
    (leagues, granularity, outcomes), one render after the other *)
Definition after_renders (base : list string) (ls : list dirent)
    (choices : list (list string * analysis_type * list string))
    (w : world) : world :=
  foldl (λ w c, (main base ls c.1.1 c.1.2 c.2 w).2) w choices.



(* ===================================================================== *)
(** * Part II: properties                                                 *)
(* ===================================================================== *)

#[local] Set Warnings "-clear-no-such-hyp".

(** ** Strings *)

Lemma endswith_spec s suffix :
  Str.endswith s suffix = true ↔ ∃ pre, s = pre +:+ suffix.
Proof.
  induction s as [|a s IH]; simpl.
  - rewrite orb_false_r, bool_decide_eq_true. split.
    + intros <-. by exists "".
    + intros [[|??] H]; simplify_eq/=; done.
  - rewrite orb_true_iff, bool_decide_eq_true, IH. split.
    + intros [<-|[pre ->]]; [by exists ""|by exists (String a pre)].
    + intros [[|b pre] H]; [by left|right].
      change (String a s = String b (pre +:+ suffix)) in H.
      simplify_eq. eauto.
Qed.

(** ** The order on paths *)

Global Instance path_le_dec : RelDecision PathOps.le.
Proof. intros p q. unfold PathOps.le. apply _. Defined.

Lemma path_le_refl p : PathOps.le p p.
Proof.
  unfold PathOps.le. induction p as [|a p IH]; simpl; [done|].
  by rewrite decide_True.
Qed.

Lemma path_le_trans p q r : PathOps.le p q → PathOps.le q r → PathOps.le p r.
Proof.
  unfold PathOps.le. revert q r.
  induction p as [|a p IH]; intros [|b q] [|c r]; simpl; try done.
  intros H1 H2. repeat case_decide; simplify_eq; eauto.
  - exfalso. by eapply H, (anti_symm String.le).
  - change (String.le a c). by trans b.
Qed.

Lemma path_le_antisym p q : PathOps.le p q → PathOps.le q p → p = q.
Proof.
  unfold PathOps.le. revert q.
  induction p as [|a p IH]; intros [|b q]; simpl; try done.
  destruct (decide (a = b)) as [->|Hab].
  - rewrite decide_True by done. intros ??. f_equal. by apply IH.
  - rewrite decide_False by done. intros H1 H2.
    destruct Hab. by apply (anti_symm String.le).
Qed.

Lemma path_le_total p q : PathOps.le p q ∨ PathOps.le q p.
Proof.
  unfold PathOps.le. revert q.
  induction p as [|a p IH]; intros [|b q]; simpl; auto.
  destruct (decide (a = b)) as [->|Hab].
  - rewrite decide_True by done. apply IH.
  - rewrite decide_False by done. apply (total String.le).
Qed.

Global Instance path_le_preorder : PreOrder PathOps.le.
Proof. split; [exact path_le_refl|exact path_le_trans]. Qed.
Global Instance path_le_anti_symm : AntiSymm (=) PathOps.le.
Proof. exact path_le_antisym. Qed.
Global Instance path_le_is_total : Total PathOps.le.
Proof. exact path_le_total. Qed.

(** Children of one directory compare as their names do. *)
Lemma path_le_siblings base a b :
  PathOps.le (base /: a) (base /: b) ↔ String.le a b.
Proof.
  unfold PathOps.le, PathOps.joinpath.
  induction base as [|c base IH]; simpl.
  - destruct (decide (a = b)) as [->|]; [|done].
    split; [done|]. intros _. done.
  - by rewrite decide_True.
Qed.

Lemma path_name_joinpath p s : PathOps.name (p /: s) = s.
Proof. unfold PathOps.name, PathOps.joinpath. apply last_last. Qed.

Lemma sorted_paths_siblings base (names : list string) :
  sorted_paths ((λ n, base /: n) <$> names)
  = (λ n, base /: n) <$> merge_sort String.le names.
Proof.
  unfold sorted_paths. apply (Sorted_unique PathOps.le).
  - apply Sorted_merge_sort, _.
  - apply Sorted_fmap with (R1 := String.le).
    + intros ???. by apply path_le_siblings.
    + apply Sorted_merge_sort, _.
  - rewrite !merge_sort_Permutation. done.
Qed.

(** ** Dictionaries *)

Lemma dict_set_fresh {V : Type} k (v : V) (d : Dict.t V) :
  k ∉ Dict.keys d → Dict.set k v d = d ++ [(k, v)].
Proof.
  unfold Dict.keys. induction d as [|[k' v'] d IH]; simpl; [done|].
  rewrite not_elem_of_cons. intros [? ?].
  rewrite decide_False by done. by rewrite IH.
Qed.

Lemma dict_fill_fresh (f : Path → string) (l : list Path) (d : Dict.t Path) :
  NoDup (Dict.keys d ++ (f <$> l)) →
  foldl (λ acc c, Dict.set (f c) c acc) d l = d ++ ((λ c, (f c, c)) <$> l).
Proof.
  revert d. induction l as [|c l IH]; intros d Hnd; simpl.
  - by rewrite app_nil_r.
  - rewrite dict_set_fresh.
    + rewrite IH; [by rewrite <-app_assoc|].
      unfold Dict.keys in *. rewrite fmap_app. simpl.
      rewrite <-app_assoc. done.
    + apply NoDup_app in Hnd as (_ & Hd & _).
      intros Hin. apply (Hd _ Hin). simpl. left.
Qed.

Lemma dict_get_fmap_key {V : Type} (g : string → V) (l : list string) k :
  Dict.get k ((λ n, (n, g n)) <$> l) = if decide (k ∈ l) then Some (g k) else None.
Proof.
  induction l as [|n l IH]; csimpl; [done|].
  destruct (decide (k = n)) as [->|Hne].
  - rewrite decide_True; [done|apply list_elem_of_here].
  - rewrite IH. destruct (decide (k ∈ l)) as [Hin|Hnin].
    + rewrite decide_True; [done|by apply list_elem_of_further].
    + rewrite decide_False; [done|]. rewrite elem_of_cons. by intros [?|?].
Qed.

(** ** League Catalog Resolver *)

Lemma get_available_leagues_subdirs base ls :
  NoDup (d_name <$> ls) →
  filter (λ e, d_is_dir e = true) ls ≠ [] →
  get_available_leagues base ls
  = (λ n, (n, base /: n))
      <$> merge_sort String.le (d_name <$> filter (λ e, d_is_dir e = true) ls).
Proof.
  intros Hnd Hne. unfold get_available_leagues.
  set (subs := filter _ ls) in *.
  assert (Hsub : NoDup (d_name <$> subs)).
  { eapply sublist_NoDup; [exact Hnd|]. apply fmap_sublist, sublist_filter. }
  destruct ((λ e, base /: d_name e) <$> subs) as [|c cs] eqn:Hcs.
  { by apply fmap_nil_inv in Hcs. }
  rewrite <-Hcs. clear Hcs c cs.
  replace ((λ e, base /: d_name e) <$> subs)
    with ((λ n, base /: n) <$> (d_name <$> subs))
    by (by rewrite <-list_fmap_compose).
  rewrite sorted_paths_siblings, dict_fill_fresh.
  - simpl. rewrite <-list_fmap_compose. apply list_fmap_ext.
    intros _ n _. simpl. by rewrite path_name_joinpath.
  - simpl. rewrite <-list_fmap_compose.
    erewrite list_fmap_ext; [|intros _ n _; apply path_name_joinpath].
    rewrite list_fmap_id. by rewrite merge_sort_Permutation.
Qed.

Lemma glob_csv_without_subdirs ls :
  filter (λ e, d_is_dir e = true) ls = [] →
  filter (λ e, Str.endswith (d_name e) ".csv" = true) ls
  = filter (λ e, d_is_dir e = false ∧ Str.endswith (d_name e) ".csv" = true) ls.
Proof.
  induction ls as [|[n d] ls IH]; [done|].
  rewrite !filter_cons. simpl. destruct d.
  - rewrite decide_True by done. done.
  - rewrite decide_False by done. intros Hnil. rewrite (IH Hnil).
    destruct (decide (Str.endswith n ".csv" = true)) as [Hn|Hn].
    + by rewrite decide_True.
    + rewrite decide_False; [done|]. by intros [_ ?].
Qed.

(** C1: the League Catalog Resolver.  When the base directory has at least
    one subdirectory, the result has exactly one league per subdirectory,
    keyed by the directory's name and mapped to the subdirectory, the keys
    in ascending string order, whatever CSV files lie next to them.  With no
    subdirectory but at least one CSV file directly in the base directory,
    the result is the single league [default] mapped to the base path; with
    neither, it is the empty mapping. *)
Theorem get_available_leagues_spec (base : Path) (ls : list dirent) :
  NoDup (d_name <$> ls) →
  let subdirs := d_name <$> filter (λ e, d_is_dir e = true) ls in
  let csvs :=
    filter (λ e, d_is_dir e = false ∧ Str.endswith (d_name e) ".csv" = true) ls in
  let leagues := get_available_leagues base ls in
  (subdirs ≠ [] →
     Dict.keys leagues ≡ₚ subdirs
     ∧ NoDup (Dict.keys leagues)
     ∧ StronglySorted String.le (Dict.keys leagues)
     ∧ (∀ k, Dict.get k leagues = if decide (k ∈ subdirs) then Some (base /: k) else None))
  ∧ (subdirs = [] → csvs ≠ [] → leagues = [("default", base)])
  ∧ (subdirs = [] → csvs = [] → leagues = []).
Proof.
  intros Hnd subdirs csvs leagues. split; [|split].
  - intros Hne.
    assert (Hl : leagues = (λ n, (n, base /: n)) <$> merge_sort String.le subdirs).
    { apply get_available_leagues_subdirs; [done|].
      intros Hnil. apply Hne. unfold subdirs. by rewrite Hnil. }
    assert (Hk : Dict.keys leagues = merge_sort String.le subdirs).
    { unfold Dict.keys. rewrite Hl, <-list_fmap_compose. apply list_fmap_id. }
    rewrite Hk. split_and!.
    + apply merge_sort_Permutation.
    + rewrite merge_sort_Permutation.
      eapply sublist_NoDup; [exact Hnd|]. apply fmap_sublist, sublist_filter.
    + apply StronglySorted_merge_sort; apply _.
    + intros k. rewrite Hl, dict_get_fmap_key.
      destruct (decide (k ∈ subdirs)) as [Hin|Hnin].
      * rewrite decide_True; [done|by rewrite merge_sort_Permutation].
      * rewrite decide_False; [done|by rewrite merge_sort_Permutation].
  - intros Hnil Hcsv. apply fmap_nil_inv in Hnil.
    unfold leagues, get_available_leagues. rewrite Hnil. simpl.
    rewrite (glob_csv_without_subdirs _ Hnil). fold csvs.
    by destruct csvs.
  - intros Hnil Hcsv. apply fmap_nil_inv in Hnil.
    unfold leagues, get_available_leagues. rewrite Hnil. simpl.
    rewrite (glob_csv_without_subdirs _ Hnil). fold csvs.
    by rewrite Hcsv.
Qed.

(** ** The monad *)

Lemma bind_ok {A B} (m : M A) (f : A → M B) w a w' :
  m w = (Ok a, w') → (m ≫= f) w = f a w'.
Proof. unfold mbind, M_bind. by intros ->. Qed.


Lemma bind_stop {A B} (m : M A) (f : A → M B) w w' :
  m w = (Stop, w') → (m ≫= f) w = (Stop, w').
Proof. unfold mbind, M_bind. by intros ->. Qed.

(** ** Tabular Loader *)

Lemma load_csv_body_absent path w :
  disk w !! path = None →
  load_csv_body path w = (Raise FileNotFoundError, w).
Proof.
  intros Hd. unfold load_csv_body, Pd.exists_, mbind, M_bind.
  rewrite Hd. rewrite bool_decide_eq_false_2; [done|].
  by intros [? ?].
Qed.

Lemma load_csv_body_present path w table :
  disk w !! path = Some table →
  load_csv_body path w
  = (Ok (fresh (dom (heap w))),
     World (disk w) (<[fresh (dom (heap w)) := table]> (heap w)) (cache w)
           (reads w ++ [path]) (page w)).
Proof.
  intros Hd. unfold load_csv_body, Pd.exists_, Pd.read_csv, mbind, M_bind.
  rewrite Hd. rewrite bool_decide_eq_true_2 by eauto. simpl.
  rewrite Hd. done.
Qed.

Lemma load_csv_absent path w :
  source w path = None → load_csv path w = (Raise FileNotFoundError, w).
Proof.
  unfold source, load_csv, St.cache_data.
  destruct (cache w !! path); [done|]. intros Hd.
  by rewrite load_csv_body_absent.
Qed.

Lemma load_csv_present path w table :
  source w path = Some table →
  ∃ w', load_csv path w = (Ok (fresh (dom (heap w))), w')
        ∧ heap w' = <[fresh (dom (heap w)) := table]> (heap w)
        ∧ disk w' = disk w
        ∧ page w' = page w
        ∧ (∀ q, source w' q = source w q).
Proof.
  unfold source, load_csv, St.cache_data.
  destruct (cache w !! path) as [v|] eqn:Hc.
  - intros [= ->]. eexists. split; [reflexivity|]. simpl.
    by split_and!.
  - intros Hd. rewrite (load_csv_body_present _ _ _ Hd). simpl.
    eexists. split; [reflexivity|]. simpl. split_and!; try done.
    intros q. rewrite lookup_insert_eq. simpl.
    destruct (decide (path = q)) as [<-|Hne].
    + rewrite lookup_insert_eq. by rewrite Hc.
    + by rewrite lookup_insert_ne.
Qed.

Lemma load_csv_disk path w : disk (load_csv path w).2 = disk w.
Proof.
  destruct (source w path) as [table|] eqn:Hs.
  - destruct (load_csv_present _ _ _ Hs) as (w' & -> & _ & ? & _). done.
  - by rewrite load_csv_absent.
Qed.

Lemma load_csv_source path w q :
  source (load_csv path w).2 q = source w q.
Proof.
  destruct (source w path) as [table|] eqn:Hs.
  - destruct (load_csv_present _ _ _ Hs) as (w' & -> & _ & _ & _ & ?). done.
  - by rewrite load_csv_absent.
Qed.


Lemma after_loads_disk reqs w : disk (after_loads reqs w) = disk w.
Proof.
  revert w. induction reqs as [|p reqs IH]; intros w; simpl; [done|].
  unfold after_loads in *. simpl. rewrite IH. apply load_csv_disk.
Qed.

Lemma load_csv_keeps_memo path w :
  memo_of_existing_files w → memo_of_existing_files (load_csv path w).2.
Proof.
  intros Hw. unfold load_csv, St.cache_data.
  destruct (cache w !! path) as [v|] eqn:Hc; [done|].
  destruct (disk w !! path) as [table|] eqn:Hd.
  - rewrite (load_csv_body_present _ _ _ Hd). simpl.
    intros q. simpl. destruct (decide (path = q)) as [<-|Hne].
    + intros _. eauto.
    + rewrite lookup_insert_ne by done. apply Hw.
  - by rewrite (load_csv_body_absent _ _ Hd).
Qed.

Lemma after_loads_keeps_memo reqs w :
  memo_of_existing_files w → memo_of_existing_files (after_loads reqs w).
Proof.
  revert w. induction reqs as [|p reqs IH]; intros w Hw; [done|].
  apply IH. by apply load_csv_keeps_memo.
Qed.


(** ** Selection Merger *)

Lemma league_table_ext w1 w2 available_leagues t league :
  (∀ q, source w1 q = source w2 q) →
  league_table w1 available_leagues t league
  = league_table w2 available_leagues t league.
Proof.
  intros Hs. unfold league_table.
  destruct (league_file available_leagues t league); simpl; auto.
Qed.

Lemma collected_ext w1 w2 available_leagues t selected_leagues :
  (∀ q, source w1 q = source w2 q) →
  collected w1 available_leagues t selected_leagues
  = collected w2 available_leagues t selected_leagues.
Proof.
  intros Hs. unfold collected, loaded. f_equal.
  induction selected_leagues as [|l ls IH]; csimpl; [done|].
  by rewrite IH, (league_table_ext w1 w2).
Qed.

Lemma warnings_ext w1 w2 available_leagues t selected_leagues :
  (∀ q, source w1 q = source w2 q) →
  warnings w1 available_leagues t selected_leagues
  = warnings w2 available_leagues t selected_leagues.
Proof.
  intros Hs. unfold warnings.
  induction selected_leagues as [|l ls IH]; csimpl; [done|].
  by rewrite IH, (league_table_ext w1 w2).
Qed.

Lemma load_selected_spec available_leagues t selected_leagues :
  Forall (λ league, is_Some (Dict.get league available_leagues)) selected_leagues →
  ∀ dfs w, ∃ refs w',
    load_selected available_leagues t selected_leagues dfs w = (Ok (dfs ++ refs), w')
    ∧ page w' = page w ++ warnings w available_leagues t selected_leagues
    ∧ Forall2 (λ r d, heap w' !! r = Some d) refs
              (collected w available_leagues t selected_leagues)
    ∧ (∀ r, r ∈ dom (heap w) → heap w' !! r = heap w !! r)
    ∧ (∀ r, r ∈ refs → r ∉ dom (heap w))
    ∧ disk w' = disk w
    ∧ (∀ q, source w' q = source w q).
Proof.
  induction 1 as [|league rest [lp Hlp] _ IH]; intros dfs w.
  { exists [], w. rewrite app_nil_r. simpl. rewrite app_nil_r.
    split_and!; try done. intros r Hr. by apply elem_of_nil in Hr. }
  assert (Hfile : league_file available_leagues t league
                  = Some (lp /: analysis_file t)).
  { unfold league_file. by rewrite Hlp. }
  cbn [load_selected]. rewrite Hlp. cbn [Py.or_raise].
  unfold mbind at 1, M_bind at 1. unfold mret at 1, M_ret at 1.
  destruct (source w (lp /: analysis_file t)) as [table|] eqn:Hsrc.
  - destruct (load_csv_present _ _ _ Hsrc) as (w1 & Hload & Hheap & Hdisk & Hpage & Hsource).
    set (r0 := fresh (dom (heap w))) in *.
    unfold mbind at 1, M_bind at 1, Py.try_except.
    unfold mbind at 1, M_bind at 1. rewrite Hload.
    unfold mret at 1, M_ret at 1.
    unfold mbind at 1, M_bind at 1, Py.mutate at 1.
    set (w2 := World _ _ _ _ _).
    assert (Hsrc2 : ∀ q, source w2 q = source w q) by (intros q; apply Hsource).
    assert (Hheap2 : heap w2 = <[r0 := tagged league table]> (heap w)).
    { unfold w2. simpl. rewrite Hheap. by rewrite alter_insert_eq. }
    assert (Hr0 : r0 ∉ dom (heap w)) by apply is_fresh.
    destruct (IH (dfs ++ [r0]) w2) as (refs & w' & Hrun & Hpg & Hall & Hold & Hnew & Hd & Hs).
    exists (r0 :: refs), w'. rewrite Hrun, <-app_assoc. split; [done|].
    assert (Htab : league_table w available_leagues t league = Some table).
    { unfold league_table. rewrite Hfile. simpl. done. }
    assert (Hr0' : heap w2 !! r0 = Some (tagged league table)).
    { rewrite Hheap2. apply lookup_insert_eq. }
    split_and!.
    + rewrite Hpg. unfold w2 at 1. simpl. rewrite Hpage. f_equal.
      rewrite (warnings_ext w2 w) by done.
      unfold warnings at 2. simpl. by rewrite Htab.
    + rewrite (collected_ext w2 w) in Hall by done.
      unfold collected, loaded. csimpl. rewrite Htab. csimpl.
      constructor; [|done].
      rewrite Hold; [done|]. apply elem_of_dom. eauto.
    + intros r Hr. rewrite Hold.
      * rewrite Hheap2. apply lookup_insert_ne. intros <-. done.
      * rewrite Hheap2, dom_insert. set_solver.
    + intros r [->|Hr]%elem_of_cons; [done|].
      intros Hin. apply (Hnew r Hr). rewrite Hheap2, dom_insert. set_solver.
    + rewrite Hd. unfold w2. simpl. done.
    + intros q. by rewrite Hs.
  - unfold mbind at 1, M_bind at 1, Py.try_except.
    unfold mbind at 1, M_bind at 1. rewrite (load_csv_absent _ _ Hsrc).
    rewrite decide_True by done.
    unfold mbind at 1, M_bind at 1, St.warning, St.emit.
    unfold mret at 1, M_ret at 1.
    set (w1 := World _ _ _ _ _).
    assert (Hsrc1 : ∀ q, source w1 q = source w q) by done.
    assert (Htab : league_table w available_leagues t league = None).
    { unfold league_table. rewrite Hfile. simpl. done. }
    destruct (IH dfs w1) as (refs & w' & Hrun & Hpg & Hall & Hold & Hnew & Hd & Hs).
    exists refs, w'. split; [done|]. split_and!.
    + rewrite Hpg. unfold w1 at 1. simpl. rewrite <-app_assoc. f_equal.
      rewrite (warnings_ext w1 w) by done.
      unfold warnings at 2. csimpl. by rewrite Htab.
    + rewrite (collected_ext w1 w) in Hall by done.
      unfold collected, loaded. csimpl. by rewrite Htab.
    + done.
    + done.
    + done.
    + intros q. by rewrite Hs.
Qed.

Lemma dict_get_set_eq {V : Type} k (v : V) (d : Dict.t V) :
  Dict.get k (Dict.set k v d) = Some v.
Proof.
  induction d as [|[k' v'] d IH]; simpl.
  - by rewrite decide_True.
  - destruct (decide (k = k')) as [->|Hne]; simpl.
    + by rewrite decide_True.
    + by rewrite decide_False.
Qed.


Lemma dict_get_is_Some {V : Type} k (d : Dict.t V) :
  is_Some (Dict.get k d) ↔ k ∈ Dict.keys d.
Proof.
  unfold Dict.keys. induction d as [|[k' v'] d IH]; csimpl.
  - rewrite elem_of_nil. split; [by intros [? ?]|done].
  - rewrite elem_of_cons. destruct (decide (k = k')) as [->|Hne].
    + split; eauto.
    + rewrite IH. split; [by right|]. by intros [?|?].
Qed.

Lemma tagged_league league table :
  DF.getitem "league" (tagged league table)
  = Some (replicate (nrows table) (CStr league))
  ∧ nrows (tagged league table) = nrows table.
Proof.
  unfold tagged, DF.setitem_scalar, DF.setitem, DF.getitem. simpl.
  by rewrite dict_get_set_eq.
Qed.

Lemma mapM_deref refs tables w :
  Forall2 (λ r d, heap w !! r = Some d) refs tables →
  mapM Py.deref refs w = (Ok tables, w).
Proof.
  induction 1 as [|r d refs tables Hr _ IH]; [done|].
  cbn [mapM]. unfold mbind at 1, M_bind at 1, Py.deref at 1.
  rewrite Hr. simpl. unfold mbind at 1, M_bind at 1. rewrite IH. done.
Qed.

Lemma pd_concat_run refs tables w :
  Forall2 (λ r d, heap w !! r = Some d) refs tables →
  Pd.concat refs w
  = (Ok (fresh (dom (heap w))),
     World (disk w) (<[fresh (dom (heap w)) := DF.concat tables]> (heap w))
           (cache w) (reads w) (page w)).
Proof.
  intros Hall. unfold Pd.concat.
  erewrite bind_ok by (by apply mapM_deref). done.
Qed.

Lemma merge_selection_run available_leagues t selected_leagues w :
  Forall (λ league, is_Some (Dict.get league available_leagues)) selected_leagues →
  let tables := collected w available_leagues t selected_leagues in
  let res := merge_selection available_leagues t selected_leagues w in
  page res.2
  = page w ++ warnings w available_leagues t selected_leagues
      ++ match tables with [] => [no_data_error] | _ => [] end
  ∧ (∀ r, r ∈ dom (heap w) → heap res.2 !! r = heap w !! r)
  ∧ match tables with
    | [] => res.1 = Stop
    | _ => ∃ data, res.1 = Ok data ∧ (data ∉ dom (heap w))
                   ∧ heap res.2 !! data = Some (DF.concat tables)
    end.
Proof.
  intros Hsel tables res.
  destruct (load_selected_spec _ t _ Hsel [] w)
    as (refs & w' & Hrun & Hpg & Hall & Hold & Hnew & Hd & Hs).
  assert (Hres : res = match refs with
                       | [] => (St.error "Nessun dato disponibile con le selezioni effettuate.";; St.stop) w'
                       | _ => Pd.concat refs w'
                       end).
  { unfold res, merge_selection. unfold mbind at 1, M_bind at 1.
    rewrite Hrun. simpl app. by destruct refs. }
  clearbody res. subst res. fold tables in Hall.
  destruct Hall as [|r d refs tbls Hr Hrest].
  - unfold mbind, M_bind, St.error, St.emit, St.stop. simpl.
    rewrite Hpg. rewrite <-app_assoc. done.
  - rewrite (pd_concat_run (r :: refs) (d :: tbls)) by (by constructor).
    simpl. rewrite Hpg, app_nil_r. split_and!; [done| |].
    + intros r' Hr'. rewrite lookup_insert_ne; [by apply Hold|].
      intros <-. apply (is_fresh (dom (heap w'))).
      apply elem_of_dom. rewrite Hold by done. by apply elem_of_dom.
    + eexists. split; [done|]. split; [|by rewrite lookup_insert_eq].
      intros Hin. apply (is_fresh (dom (heap w'))).
      apply elem_of_dom. rewrite Hold by done. by apply elem_of_dom.
Qed.

(** *** Stacking the tables *)

Lemma add_new_labels_elem (acc ls : list string) l :
  l ∈ foldl (λ acc l, if Str.mem l acc then acc else acc ++ [l]) acc ls
  ↔ l ∈ acc ∨ l ∈ ls.
Proof.
  revert acc. induction ls as [|x ls IH]; intros acc; simpl.
  - rewrite elem_of_nil. naive_solver.
  - rewrite IH, elem_of_cons. unfold Str.mem. case_bool_decide.
    + split; [naive_solver|]. intros [?|[->|?]]; auto.
    + rewrite elem_of_app, list_elem_of_singleton. naive_solver.
Qed.

Lemma add_new_labels_NoDup (acc ls : list string) :
  NoDup acc →
  NoDup (foldl (λ acc l, if Str.mem l acc then acc else acc ++ [l]) acc ls).
Proof.
  revert acc. induction ls as [|x ls IH]; intros acc Hacc; simpl; [done|].
  apply IH. unfold Str.mem. case_bool_decide; [done|].
  apply NoDup_app. split_and!; [done| |apply NoDup_singleton].
  intros y Hy ->%list_elem_of_singleton. done.
Qed.

Lemma union_labels_elem dfs l :
  l ∈ DF.union_labels dfs ↔ ∃ df, df ∈ dfs ∧ l ∈ DF.columns df.
Proof.
  unfold DF.union_labels. rewrite add_new_labels_elem, elem_of_nil.
  rewrite list_elem_of_In, in_flat_map.
  setoid_rewrite <-list_elem_of_In. naive_solver.
Qed.

Lemma union_labels_NoDup dfs : NoDup (DF.union_labels dfs).
Proof. apply add_new_labels_NoDup, NoDup_nil_2. Qed.

Lemma concat_getitem dfs l :
  DF.getitem l (DF.concat dfs)
  = if decide (l ∈ DF.union_labels dfs)
    then Some (flat_map
                 (λ df, default (replicate (nrows df) (CFloat F64.nan))
                                (DF.getitem l df)) dfs)
    else None.
Proof.
  unfold DF.getitem, DF.concat. simpl.
  apply (dict_get_fmap_key
           (λ l, flat_map
                   (λ df, default (replicate (nrows df) (CFloat F64.nan))
                                  (Dict.get l (cols df))) dfs)).
Qed.

Lemma concat_columns dfs : DF.columns (DF.concat dfs) = DF.union_labels dfs.
Proof.
  unfold DF.columns, DF.concat, Dict.keys. simpl.
  rewrite <-list_fmap_compose. apply list_fmap_id.
Qed.

Lemma concat_league_column (files : list (string * DataFrame)) :
  files ≠ [] →
  DF.getitem "league" (DF.concat ((λ lt, tagged lt.1 lt.2) <$> files))
  = Some (flat_map (λ lt, replicate (nrows lt.2) (CStr lt.1)) files).
Proof.
  intros Hne. rewrite concat_getitem. rewrite decide_True.
  - f_equal. clear Hne. induction files as [|[l tb] files IH]; [done|].
    csimpl. rewrite IH. f_equal.
    destruct (tagged_league l tb) as [-> _]. done.
  - apply union_labels_elem. destruct files as [|[l tb] files]; [done|].
    exists (tagged l tb). split; [left|].
    unfold DF.columns. apply dict_get_is_Some.
    destruct (tagged_league l tb) as [Hg _]. unfold DF.getitem in Hg.
    rewrite Hg. eauto.
Qed.

Lemma loaded_keys w available_leagues t selected_leagues :
  (loaded w available_leagues t selected_leagues).*1
  = filter (λ league, is_Some (league_table w available_leagues t league))
           selected_leagues.
Proof.
  unfold loaded. induction selected_leagues as [|l ls IH]; [done|].
  csimpl. rewrite filter_cons.
  destruct (league_table w available_leagues t l) as [tb|]; csimpl.
  - by rewrite IH.
  - done.
Qed.

Lemma loaded_elem w available_leagues t selected_leagues l tb :
  (l, tb) ∈ loaded w available_leagues t selected_leagues
  ↔ l ∈ selected_leagues ∧ league_table w available_leagues t l = Some tb.
Proof.
  unfold loaded. rewrite list_elem_of_omap. split.
  - intros (l' & Hin & Heq).
    destruct (league_table w available_leagues t l') eqn:E; simplify_eq/=. done.
  - intros [Hin Heq]. exists l. split; [done|]. by rewrite Heq.
Qed.

Lemma warnings_missing w available_leagues t selected_leagues :
  warnings w available_leagues t selected_leagues
  = missing_warning t
      <$> filter (λ league, league_table w available_leagues t league = None)
                 selected_leagues.
Proof.
  unfold warnings. induction selected_leagues as [|l ls IH]; [done|].
  csimpl. rewrite filter_cons.
  destruct (league_table w available_leagues t l) as [tb|]; csimpl.
  - done.
  - by rewrite IH.
Qed.

Lemma warnings_not_tables w available_leagues t selected_leagues :
  Forall (λ e, is_table e = false)
         (warnings w available_leagues t selected_leagues).
Proof. rewrite warnings_missing. apply Forall_fmap, Forall_true. done. Qed.

Lemma main_stops_without_data base ls selected_leagues t selected_outcomes w :
  let available_leagues := get_available_leagues base ls in
  Forall (λ league, is_Some (Dict.get league available_leagues)) selected_leagues →
  collected w available_leagues t selected_leagues = [] →
  let res := main base ls selected_leagues t selected_outcomes w in
  res.1 = Stop
  ∧ ∃ evs, page res.2 = page w ++ evs ∧ Forall (λ e, is_table e = false) evs.
Proof.
  intros available_leagues Hsel Hnone res. unfold res, main.
  fold available_leagues.
  destruct available_leagues as [|a av] eqn:Hav.
  { split; [done|]. eexists. split; [done|]. by repeat constructor. }
  rewrite <-Hav in *.
  destruct selected_leagues as [|l sel] eqn:Hl.
  { split; [done|]. eexists. split; [done|]. by repeat constructor. }
  rewrite <-Hl in *.
  destruct selected_outcomes as [|o outs].
  { split; [done|]. eexists. split; [done|]. by repeat constructor. }
  destruct (merge_selection_run available_leagues t selected_leagues w Hsel)
    as (Hpage & _ & Hres).
  rewrite Hnone in Hpage, Hres.
  destruct (merge_selection available_leagues t selected_leagues w)
    as [o' w'] eqn:Hm.
  simpl in Hpage, Hres. subst o'.
  rewrite (bind_stop _ _ _ _ Hm). simpl. split; [done|].
  eexists. split; [exact Hpage|].
  apply Forall_app. split; [apply warnings_not_tables|by repeat constructor].
Qed.

(** C2: the Selection Merger, for leagues chosen among the available ones.
    The leagues are tried in the order of the selection.  Each league
    whose file the loader does not find gives exactly one warning, in that
    order, and nothing else: the merge goes on.  Each table found is
    collected with a [league] column that holds the league's name on every
    row, and when at least one is collected the result is their stack, the
    [league] column of which names, row by row, the league the row came
    from.  When none is collected, the merge reports the absence of data
    and stops: the script stops with it and the page gets no table. *)
Theorem merge_selection_spec (base : list string) (ls : list dirent)
    (t : analysis_type) (selected_leagues selected_outcomes : list string)
    (w : world) :
  let available_leagues := get_available_leagues base ls in
  Forall (λ league, league ∈ Dict.keys available_leagues) selected_leagues →
  let found := loaded w available_leagues t selected_leagues in
  let res := merge_selection available_leagues t selected_leagues w in
  found.*1
    = filter (λ league, is_Some (league_table w available_leagues t league))
             selected_leagues
  ∧ (∀ league table, (league, table) ∈ found →
       league_table w available_leagues t league = Some table
       ∧ nrows (tagged league table) = nrows table
       ∧ DF.getitem "league" (tagged league table)
         = Some (replicate (nrows table) (CStr league)))
  ∧ page res.2
    = page w
      ++ (missing_warning t
            <$> filter (λ league, league_table w available_leagues t league = None)
                       selected_leagues)
      ++ match found with [] => [no_data_error] | _ => [] end
  ∧ (found ≠ [] →
       ∃ data combined,
         res.1 = Ok data
         ∧ heap res.2 !! data = Some combined
         ∧ combined = DF.concat ((λ lt, tagged lt.1 lt.2) <$> found)
         ∧ nrows combined = sum_list ((λ lt, nrows lt.2) <$> found)
         ∧ DF.getitem "league" combined
           = Some (flat_map (λ lt, replicate (nrows lt.2) (CStr lt.1)) found))
  ∧ (found = [] →
       res.1 = Stop
       ∧ (main base ls selected_leagues t selected_outcomes w).1 = Stop
       ∧ ∃ evs,
           page (main base ls selected_leagues t selected_outcomes w).2
           = page w ++ evs
           ∧ Forall (λ e, is_table e = false) evs).
Proof.
  intros available_leagues Hsel found res.
  assert (Hsel' : Forall (λ league, is_Some (Dict.get league available_leagues))
                         selected_leagues).
  { eapply Forall_impl; [exact Hsel|]. intros l. apply dict_get_is_Some. }
  destruct (merge_selection_run available_leagues t selected_leagues w Hsel')
    as (Hpage & _ & Hres).
  fold res in Hpage, Hres.
  assert (Hcol : collected w available_leagues t selected_leagues
                 = (λ lt, tagged lt.1 lt.2) <$> found) by done.
  assert (Hkeys := loaded_keys w available_leagues t selected_leagues).
  assert (Helem := loaded_elem w available_leagues t selected_leagues).
  assert (Hmain := main_stops_without_data base ls selected_leagues t
                     selected_outcomes w Hsel').
  fold available_leagues found in Hkeys, Helem, Hmain.
  rewrite Hcol in Hpage, Hres, Hmain. clearbody found res.
  split_and!.
  - done.
  - intros league table [_ Htab]%Helem. split; [done|].
    destruct (tagged_league league table). done.
  - rewrite Hpage, warnings_missing. by destruct found.
  - intros Hne. destruct found as [|lt found']; [done|].
    destruct Hres as (data & Hdata & _ & Hheap).
    eexists data, _. split_and!; [done|exact Hheap|done| |].
    + unfold DF.concat. cbn [nrows]. f_equal.
      rewrite <-list_fmap_compose. apply list_fmap_ext.
      intros _ [l tb] _. simpl. by destruct (tagged_league l tb).
    + by apply concat_league_column.
  - intros ->. split; [done|]. by apply Hmain.
Qed.

(** *** The merge and the table the loader returned *)

(** C8, as stated, fails: the merge of SerieA writes the [league] column
    into the very object the loader returned. *)
Lemma merge_mutates_loaded_table :
  ¬ merge_keeps_loaded_table (fresh_session Sample.only_a) Sample.leagues
      Stagione "SerieA".
Proof.
  intros H.
  specialize (H ["data"; "SerieA"; "analisi_stagioni.csv"] 0%nat
                (load_csv ["data"; "SerieA"; "analisi_stagioni.csv"]
                          (fresh_session Sample.only_a)).2).
  vm_compute in H. specialize (H eq_refl eq_refl). discriminate H.
Qed.

(** C8, amended: the merge tags the table object the loader returned, in
    place and without a copy: that object, and no other, changes, and it
    is the one collected.  The loader's memoized entry is a copy of its
    own and stays as it was, so a later load of the same file returns a
    new object that holds the file's table without the tag. *)
Theorem merge_tags_in_place (available_leagues : Dict.t (list string))
    (t : analysis_type) (league : string) (league_path : list string)
    (table : DataFrame) (w : world) :
  Dict.get league available_leagues = Some league_path →
  source w (league_path /: analysis_file t) = Some table →
  let path := league_path /: analysis_file t in
  ∃ r w1 w2,
    load_csv path w = (Ok r, w1)
    ∧ heap w1 !! r = Some table
    ∧ load_selected available_leagues t [league] [] w = (Ok [r], w2)
    ∧ heap w2 = <[r := tagged league table]> (heap w1)
    ∧ cache w2 = cache w1
    ∧ disk w2 = disk w1
    ∧ ∃ r' w3,
        load_csv path w2 = (Ok r', w3)
        ∧ r' ≠ r
        ∧ heap w3 !! r' = Some table
        ∧ heap w3 !! r = Some (tagged league table).
Proof.
  intros Hlp Hsrc path. subst path.
  destruct (load_csv_present _ _ _ Hsrc)
    as (w1 & Hload & Hheap & Hdisk & Hpage & Hsource).
  set (path := league_path /: analysis_file t) in *.
  set (r := fresh (dom (heap w))) in *.
  set (w2 := World (disk w1) (<[r := tagged league table]> (heap w1))
                   (cache w1) (reads w1) (page w1)).
  assert (Hsrc2 : source w2 path = Some table).
  { change (source w1 path = Some table). by rewrite Hsource. }
  destruct (load_csv_present _ _ _ Hsrc2)
    as (w3 & Hload3 & Hheap3 & _).
  assert (Hr : heap w1 !! r = Some table).
  { rewrite Hheap. apply lookup_insert_eq. }
  assert (Hfresh : fresh (dom (heap w2)) ≠ r).
  { intros Heq. apply (is_fresh (dom (heap w2))). rewrite Heq.
    unfold w2. simpl. rewrite dom_insert. set_solver. }
  exists r, w1, w2. split_and!; try done.
  - cbn [load_selected]. rewrite Hlp. cbn [Py.or_raise].
    unfold mbind at 1, M_bind at 1. unfold mret at 1, M_ret at 1.
    unfold mbind at 1, M_bind at 1, Py.try_except.
    unfold mbind at 1, M_bind at 1. unfold path in *. rewrite Hload.
    unfold mret at 1, M_ret at 1.
    unfold mbind at 1, M_bind at 1, Py.mutate at 1.
    unfold mret, M_ret. simpl. f_equal. unfold w2. f_equal.
    rewrite Hheap. rewrite alter_insert_eq, insert_insert_eq. done.
  - exists (fresh (dom (heap w2))), w3. split_and!; try done.
    + rewrite Hheap3. apply lookup_insert_eq.
    + rewrite Hheap3. rewrite lookup_insert_ne by done.
      unfold w2. simpl. apply lookup_insert_eq.
Qed.

(** ** Presentation Formatter *)

Lemma alter_lookup_Some {V : Type} (f : V → V) (m : gmap nat V) r x :
  m !! r = Some x → alter f r m = <[r := f x]> m.
Proof.
  intros Hr. apply map_eq. intros i. destruct (decide (r = i)) as [<-|Hne].
  - rewrite lookup_alter_eq, lookup_insert_eq, Hr. done.
  - rewrite lookup_alter_ne, lookup_insert_ne by done. done.
Qed.

Lemma astype_float_numeric s :
  Forall (λ v, Series.is_num v = true) s →
  Series.astype_float s = Some (floats s).
Proof.
  intros Hnum. unfold floats.
  assert (H : is_Some (Series.astype_float s)); [|by destruct H as [? ->]].
  unfold Series.astype_float. apply mapM_is_Some.
  eapply Forall_impl; [exact Hnum|]. intros [z|x|t] Hv; simpl; eauto. done.
Qed.

(** One assignment [df[col] = f(df[col])] on a table whose labels are
    distinct *)
Lemma dict_set_get {V : Type} k (f : V → V) (d : Dict.t V) s :
  NoDup (Dict.keys d) →
  Dict.get k d = Some s →
  Dict.set k (f s) d = (λ c, if decide (c.1 = k) then (c.1, f c.2) else c) <$> d.
Proof.
  unfold Dict.keys. induction d as [|[k' v'] d IH]; csimpl; [done|].
  intros [Hk' Hnd]%NoDup_cons.
  destruct (decide (k = k')) as [->|Hne].
  - intros [= <-]. rewrite decide_True by done. simpl. f_equal.
    symmetry. etrans; [|apply list_fmap_id]. apply list_fmap_ext.
    intros i [k0 v0] Hi. simpl. rewrite decide_False; [done|].
    intros ->. apply Hk'. apply list_elem_of_fmap. exists (k', v0).
    split; [done|]. eapply list_elem_of_lookup_2. exact Hi.
  - intros Hget. rewrite decide_False by done. f_equal. by apply IH.
Qed.

(** The body of the formatter's loop, on the copy [r] *)
Local Abbreviation round_column r :=
  (λ col : string,
     cur ← Py.deref r;
     s ← Py.or_raise KeyError (DF.getitem col cur);
     xs ← Py.or_raise ValueError (Series.astype_float s);
     Py.mutate r (DF.setitem col (Series.round2 xs))).

Lemma round_column_frame r col w r0 :
  r0 ≠ r → heap (round_column r col w).2 !! r0 = heap w !! r0.
Proof.
  intros Hne. unfold mbind, M_bind, Py.deref, Py.or_raise, Py.raise, Py.mutate.
  simpl. destruct (DF.getitem col _) as [s|]; simpl; [|done].
  destruct (Series.astype_float s) as [xs|]; simpl; [|done].
  by rewrite lookup_alter_ne.
Qed.

Lemma format_loop_frame r todo w r0 :
  r0 ≠ r → heap (for_each todo (round_column r) w).2 !! r0 = heap w !! r0.
Proof.
  intros Hne. revert w. induction todo as [|col todo IH]; intros w; [done|].
  cbn [for_each]. unfold mbind at 1, M_bind at 1.
  pose proof (round_column_frame r col w r0 Hne) as Hstep.
  cbn beta in Hstep.
  match type of Hstep with
  | heap (?m).2 !! _ = _ => destruct m as [[[]|e|] w1]
  end; cbn [snd] in Hstep; cbn [snd]; [|done..].
  by rewrite IH.
Qed.

Lemma round_column_ok r col w cur s :
  heap w !! r = Some cur →
  DF.getitem col cur = Some s →
  Forall (λ v, Series.is_num v = true) s →
  round_column r col w
  = (Ok (), World (disk w)
              (<[r := DF.setitem col (Series.round2 (floats s)) cur]> (heap w))
              (cache w) (reads w) (page w)).
Proof.
  intros Hr Hget Hnum.
  unfold mbind, M_bind, Py.deref, Py.or_raise, Py.raise, Py.mutate.
  simpl. rewrite Hr. simpl. rewrite Hget. simpl.
  rewrite (astype_float_numeric _ Hnum). simpl.
  by rewrite (alter_lookup_Some _ _ _ _ Hr).
Qed.

Lemma dict_get_elem {V : Type} k (s : V) (d : Dict.t V) :
  NoDup (Dict.keys d) → (k, s) ∈ d → Dict.get k d = Some s.
Proof.
  unfold Dict.keys. induction d as [|[k' v'] d IH]; csimpl.
  - by intros _ ?%elem_of_nil.
  - intros [Hk' Hnd]%NoDup_cons [[= <- <-]|Hin]%elem_of_cons.
    + by rewrite decide_True.
    + rewrite decide_False; [by apply IH|].
      intros ->. apply Hk'. apply list_elem_of_fmap. by exists (k', s).
Qed.

Lemma format_loop_ok r todo :
  ∀ w cur,
    heap w !! r = Some cur →
    NoDup (DF.columns cur) →
    NoDup todo →
    Forall (λ col, col ∈ DF.columns cur) todo →
    Forall (λ c, c.1 ∈ todo → Forall (λ v, Series.is_num v = true) c.2) (cols cur) →
    for_each todo (round_column r) w
    = (Ok (),
       World (disk w)
         (<[r := Frame (nrows cur)
                   ((λ c, if decide (c.1 ∈ todo)
                          then (c.1, Series.round2 (floats c.2)) else c)
                      <$> cols cur)]> (heap w))
         (cache w) (reads w) (page w)).
Proof.
  induction todo as [|col todo IH]; intros w cur Hr Hnd Htodo Hin Hnum.
  - cbn [for_each]. unfold mret, M_ret. f_equal.
    destruct w as [dk hp ch rd pg], cur as [n cs].
    cbn [disk heap cache reads page nrows cols] in *. f_equal.
    symmetry. rewrite <-(insert_id hp r (Frame n cs)) at 2 by done.
    do 2 f_equal. etrans; [|apply list_fmap_id]. apply list_fmap_ext.
    intros i c _. rewrite decide_False; [done|]. by intros ?%elem_of_nil.
  - apply NoDup_cons in Htodo as [Hcol Htodo].
    apply Forall_cons in Hin as [Hcin Hin].
    destruct (dict_get_is_Some col (cols cur)) as [_ [s Hs]]; [done|].
    assert (Hsnum : Forall (λ v, Series.is_num v = true) s).
    { rewrite Forall_forall in Hnum.
      apply (Hnum (col, s)); [|left].
      clear -Hs. induction (cols cur) as [|[k v] d IHd]; simpl in *; [done|].
      destruct (decide (col = k)) as [->|]; simplify_eq; [left|right; auto]. }
    cbn [for_each]. erewrite bind_ok by (by eapply round_column_ok).
    set (cur1 := DF.setitem col (Series.round2 (floats s)) cur).
    assert (Hcols1 : cols cur1
              = (λ c, if decide (c.1 = col)
                      then (c.1, Series.round2 (floats c.2)) else c) <$> cols cur).
    { unfold cur1, DF.setitem. simpl.
      by rewrite (dict_set_get col (λ s, Series.round2 (floats s)) _ s). }
    assert (Hkeys1 : DF.columns cur1 = DF.columns cur).
    { unfold DF.columns, Dict.keys. rewrite Hcols1, <-list_fmap_compose.
      apply list_fmap_ext. intros i c _. simpl. by case_decide. }
    rewrite (IH _ cur1); cbn [disk heap cache reads page].
    + f_equal. f_equal. rewrite insert_insert_eq. f_equal.
      replace (nrows cur1) with (nrows cur) by done. f_equal.
      rewrite Hcols1, <-list_fmap_compose. apply list_fmap_ext.
      intros i [k v] _. simpl. destruct (decide (k = col)) as [->|Hne]; simpl.
      * rewrite decide_False by done. rewrite decide_True; [done|left].
      * destruct (decide (k ∈ todo)) as [Hk|Hk].
        -- rewrite decide_True; [done|by right].
        -- rewrite decide_False; [done|]. by intros [?|?]%elem_of_cons.
    + apply lookup_insert_eq.
    + by rewrite Hkeys1.
    + done.
    + by rewrite Hkeys1.
    + rewrite Hcols1. apply Forall_fmap. rewrite Forall_forall in Hnum |- *.
      intros [k v] Hkv. simpl. destruct (decide (k = col)) as [->|Hne]; simpl.
      * intros ?. done.
      * intros Hk. apply (Hnum (k, v) Hkv). by right.
Qed.

Lemma format_percentage_columns_unfold df d w :
  heap w !! df = Some d →
  format_percentage_columns df w
  = (for_each (filter (λ col, Str.endswith col "_percentage" = true) (DF.columns d))
              (round_column (fresh (dom (heap w))))
     ≫= λ _, mret (fresh (dom (heap w))))
      (World (disk w) (<[fresh (dom (heap w)) := d]> (heap w))
             (cache w) (reads w) (page w)).
Proof.
  intros Hdf. unfold format_percentage_columns.
  unfold mbind at 1, M_bind at 1, Py.deref at 1.
  rewrite Hdf. cbn [default from_option id].
  unfold Py.copy. unfold mbind at 1, M_bind at 1.
  unfold mbind at 1, M_bind at 1, Py.deref at 1.
  rewrite Hdf. cbn [default from_option id].
  unfold Py.alloc at 1. done.
Qed.

Lemma format_percentage_columns_frame df d w r :
  heap w !! df = Some d →
  r ∈ dom (heap w) →
  heap (format_percentage_columns df w).2 !! r = heap w !! r.
Proof.
  intros Hdf Hr. rewrite (format_percentage_columns_unfold _ _ _ Hdf).
  set (out := fresh (dom (heap w))).
  assert (Hne : r ≠ out). { intros ->. by apply (is_fresh (dom (heap w))). }
  set (w1 := World _ _ _ _ _).
  set (pct_cols := filter _ _).
  unfold mbind at 1, M_bind at 1, mret, M_ret.
  pose proof (format_loop_frame out pct_cols w1 r) as Hf.
  destruct (for_each pct_cols (round_column out) w1) as [[[]|e|] w2];
    cbn [snd] in *; rewrite Hf by done; unfold w1; simpl;
    by rewrite lookup_insert_ne.
Qed.

Lemma format_percentage_columns_run df d w :
  heap w !! df = Some d →
  NoDup (DF.columns d) →
  numeric_pct d →
  format_percentage_columns df w
  = (Ok (fresh (dom (heap w))),
     World (disk w) (<[fresh (dom (heap w)) := formatted d]> (heap w))
           (cache w) (reads w) (page w)).
Proof.
  intros Hdf Hnd Hnum. rewrite (format_percentage_columns_unfold _ _ _ Hdf).
  set (out := fresh (dom (heap w))).
  set (w1 := World _ _ _ _ _).
  set (pct_cols := filter _ _).
  erewrite bind_ok; cycle 1.
  { apply (format_loop_ok out pct_cols w1 d).
    - unfold w1. simpl. apply lookup_insert_eq.
    - done.
    - apply NoDup_filter. done.
    - apply Forall_forall. intros c Hc.
      by apply list_elem_of_filter in Hc as [_ ?].
    - eapply Forall_impl; [exact Hnum|]. intros c Hc Hin. apply Hc.
      by apply list_elem_of_filter in Hin as [? _]. }
  unfold mret, M_ret, w1. cbn [disk heap cache reads page].
  rewrite insert_insert_eq. do 3 f_equal. unfold formatted. f_equal.
  apply list_fmap_ext. intros i [k v] Hi. unfold formatted_column, is_pct. simpl.
  assert (Hk : k ∈ DF.columns d).
  { apply list_elem_of_fmap. exists (k, v). split; [done|].
    eapply list_elem_of_lookup_2. exact Hi. }
  destruct (Str.endswith k "_percentage") eqn:Hp.
  - rewrite decide_True; [done|]. by apply list_elem_of_filter.
  - rewrite decide_False; [done|]. intros [Hp' _]%list_elem_of_filter.
    congruence.
Qed.

(** C6: the first step of the Presentation Formatter.  Whatever happens,
    no table that existed before the call is modified, the input among
    them: the formatter works on a copy.  On a table whose labels are
    distinct and whose percentage columns hold numbers, the result is a
    new table with the same rows and labels; every column whose name ends
    in [_percentage], selected or not, holds the floats of the input
    column rounded to two decimals, and every other column is as it was.
    On 33.333 and 66.667 the rounding gives 33.33 and 66.67. *)
Theorem format_percentage_columns_spec (df : nat) (d : DataFrame) (w : world) :
  heap w !! df = Some d →
  let res := format_percentage_columns df w in
  (∀ r, r ∈ dom (heap w) → heap res.2 !! r = heap w !! r)
  ∧ heap res.2 !! df = Some d
  ∧ (NoDup (DF.columns d) → numeric_pct d →
       ∃ out, res.1 = Ok out
              ∧ (out ∉ dom (heap w))
              ∧ heap res.2 !! out
                = Some (Frame (nrows d)
                          ((λ c, (c.1, if Str.endswith c.1 "_percentage"
                                       then Series.round2 (floats c.2)
                                       else c.2))
                             <$> cols d)))
  ∧ Series.round2 (floats [CFloat (F64.dec 33333 3); CFloat (F64.dec 66667 3)])
    = [CFloat (F64.dec 3333 2); CFloat (F64.dec 6667 2)].
Proof.
  intros Hdf res. split_and!.
  - intros r Hr. by apply (format_percentage_columns_frame df d).
  - unfold res. rewrite (format_percentage_columns_frame df d); [done..|].
    apply elem_of_dom. eauto.
  - intros Hnd Hnum. exists (fresh (dom (heap w))). unfold res.
    rewrite (format_percentage_columns_run df d) by done. simpl.
    split_and!; [done|apply is_fresh|]. by rewrite lookup_insert_eq.
  - by vm_compute.
Qed.

(** ** Column Orderer *)

Lemma string_app_length s t :
  String.length (s +:+ t) = (String.length s + String.length t)%nat.
Proof.
  induction s as [|a s IH]; [done|].
  change (String a s +:+ t) with (String a (s +:+ t)). simpl. by rewrite IH.
Qed.

Lemma string_app_inj_l s1 s2 t : s1 +:+ t = s2 +:+ t → s1 = s2.
Proof.
  revert s2. induction s1 as [|a s1 IH]; intros [|b s2] Heq; [done| | |].
  - apply (f_equal String.length) in Heq.
    rewrite !string_app_length in Heq. simpl in Heq. lia.
  - apply (f_equal String.length) in Heq.
    rewrite !string_app_length in Heq. simpl in Heq. lia.
  - change (String a (s1 +:+ t) = String b (s2 +:+ t)) in Heq.
    simplify_eq. f_equal. by apply IH.
Qed.

Lemma last_char_app s a t :
  Str.last_char (s +:+ String a t) = Str.last_char (String a t).
Proof.
  induction s as [|b s IH]; [done|].
  change (String b s +:+ String a t) with (String b (s +:+ String a t)).
  cbn [Str.last_char]. rewrite IH.
  destruct (s +:+ String a t) eqn:E; [|done].
  apply (f_equal String.length) in E. rewrite string_app_length in E.
  simpl in E. lia.
Qed.

Lemma count_neq_percentage o1 o2 : o1 +:+ "_count" ≠ o2 +:+ "_percentage".
Proof.
  intros Heq. apply (f_equal Str.last_char) in Heq.
  rewrite !last_char_app in Heq. discriminate Heq.
Qed.

Lemma not_suffixed s suffix o :
  Str.endswith s suffix = false → s ≠ o +:+ suffix.
Proof.
  intros Hf Heq. assert (Str.endswith s suffix = true); [|congruence].
  apply endswith_spec. eauto.
Qed.

Lemma order_cols_preferred t selected_outcomes :
  order_cols t selected_outcomes = preferred t selected_outcomes.
Proof. by destruct t. Qed.

Lemma preferred_NoDup t selected_outcomes :
  NoDup selected_outcomes → NoDup (preferred t selected_outcomes).
Proof.
  intros Hnd.
  assert (Hc : NoDup ((λ o, o +:+ "_count") <$> selected_outcomes)).
  { apply NoDup_fmap_2; [|done]. intros ??. apply string_app_inj_l. }
  assert (Hp : NoDup ((λ o, o +:+ "_percentage") <$> selected_outcomes)).
  { apply NoDup_fmap_2; [|done]. intros ??. apply string_app_inj_l. }
  assert (Hcp : NoDup (((λ o, o +:+ "_count") <$> selected_outcomes)
                       ++ ((λ o, o +:+ "_percentage") <$> selected_outcomes))).
  { apply NoDup_app. split_and!; [done| |done].
    intros x [o1 [-> _]]%list_elem_of_fmap [o2 [Heq _]]%list_elem_of_fmap.
    by apply count_neq_percentage in Heq. }
  assert (Hid : ∀ s, Str.endswith s "_count" = false →
                     Str.endswith s "_percentage" = false →
                     s ∉ ((λ o, o +:+ "_count") <$> selected_outcomes)
                         ++ ((λ o, o +:+ "_percentage") <$> selected_outcomes)).
  { intros s H1 H2 [Hin|Hin]%elem_of_app;
      apply list_elem_of_fmap in Hin as [o [Heq _]];
      by eapply not_suffixed in Heq. }
  unfold preferred. destruct t; cbn [app].
  - apply NoDup_cons. split.
    + rewrite not_elem_of_cons. split; [done|by apply Hid].
    + apply NoDup_cons. split; [by apply Hid|done].
  - apply NoDup_cons. split.
    + rewrite !not_elem_of_cons. split_and!; [done..|by apply Hid].
    + apply NoDup_cons. split.
      * rewrite not_elem_of_cons. split; [done|by apply Hid].
      * apply NoDup_cons. split; [by apply Hid|done].
Qed.

Lemma filter_ext_elem {A : Type} (P Q : A → Prop)
    `{!∀ x, Decision (P x), !∀ x, Decision (Q x)} (l : list A) :
  (∀ x, x ∈ l → P x ↔ Q x) → filter P l = filter Q l.
Proof.
  induction l as [|a l IH]; intros Hext; [done|].
  rewrite !filter_cons. rewrite IH.
  - destruct (decide (P a)) as [Hp|Hp], (decide (Q a)) as [Hq|Hq]; try done.
    + destruct Hq. apply Hext; [left|done].
    + destruct Hp. apply Hext; [left|done].
  - intros x Hx. apply Hext. by right.
Qed.

Lemma column_order_preferred t selected_outcomes (columns : list string) :
  column_order t selected_outcomes columns
  = filter (λ col, col ∈ columns) (preferred t selected_outcomes)
    ++ filter (λ col, col ∉ preferred t selected_outcomes) columns.
Proof.
  unfold column_order, extra_cols, available_cols.
  rewrite order_cols_preferred. f_equal.
  apply filter_ext_elem. intros col Hcol.
  rewrite list_elem_of_filter. naive_solver.
Qed.

Lemma filter_label_absent {V : Type} (d : Dict.t V) l :
  l ∉ Dict.keys d → filter (λ c, c.1 = l) d = [].
Proof.
  unfold Dict.keys. induction d as [|[k v] d IH]; [done|].
  rewrite filter_cons. csimpl. intros [? ?]%not_elem_of_cons.
  rewrite decide_False by done. by apply IH.
Qed.

Lemma filter_label_present {V : Type} (d : Dict.t V) l :
  NoDup (Dict.keys d) → l ∈ Dict.keys d →
  ∃ s, filter (λ c, c.1 = l) d = [(l, s)] ∧ Dict.get l d = Some s.
Proof.
  unfold Dict.keys. induction d as [|[k v] d IH]; csimpl.
  - by intros _ ?%elem_of_nil.
  - intros [Hk Hnd]%NoDup_cons Hl. rewrite filter_cons. simpl.
    destruct (decide (k = l)) as [->|Hne].
    + exists v. rewrite decide_True by done.
      by rewrite filter_label_absent.
    + rewrite decide_False by done. apply IH; [done|].
      by apply elem_of_cons in Hl as [?|?].
Qed.

(** Taking columns by label from a table whose labels are distinct *)
Lemma take_columns labels d :
  NoDup (DF.columns d) →
  Forall (λ l, l ∈ DF.columns d) labels →
  ∃ d', DF.take labels d = Some d'
        ∧ nrows d' = nrows d
        ∧ DF.columns d' = labels
        ∧ cols d' = flat_map (λ l, filter (λ c, c.1 = l) (cols d)) labels.
Proof.
  intros Hnd Hin. unfold DF.take.
  assert (Hall : forallb (λ l, Str.mem l (DF.columns d)) labels = true).
  { apply forallb_forall. intros l Hl%list_elem_of_In.
    rewrite Forall_forall in Hin. unfold Str.mem.
    apply bool_decide_eq_true. auto. }
  rewrite Hall. clear Hall. eexists. split; [done|]. simpl.
  split_and!; [done| |done].
  unfold DF.columns, Dict.keys in *. simpl.
  induction Hin as [|l labels Hl _ IH]; [done|].
  simpl. rewrite fmap_app, IH.
  destruct (filter_label_present (cols d) l Hnd Hl) as (s & -> & _). done.
Qed.


Lemma dict_get_Some_elem {V : Type} k (s : V) (d : Dict.t V) :
  Dict.get k d = Some s → (k, s) ∈ d.
Proof.
  induction d as [|[k' v'] d IH]; simpl; [done|].
  destruct (decide (k = k')) as [->|Hne].
  - intros [= ->]. left.
  - intros ?. right. auto.
Qed.

Lemma dict_get_perm {V : Type} (d1 d2 : Dict.t V) k :
  NoDup (Dict.keys d1) → d1 ≡ₚ d2 → Dict.get k d1 = Dict.get k d2.
Proof.
  intros Hnd Hperm.
  assert (Hnd2 : NoDup (Dict.keys d2)).
  { unfold Dict.keys in *. by rewrite <-Hperm. }
  destruct (Dict.get k d2) as [s|] eqn:H2.
  - apply dict_get_elem; [done|]. rewrite Hperm. by apply dict_get_Some_elem.
  - destruct (Dict.get k d1) as [s|] eqn:H1; [|done].
    apply dict_get_Some_elem in H1. rewrite Hperm in H1.
    apply (dict_get_elem _ _ _ Hnd2) in H1. congruence.
Qed.

Lemma flat_map_ext_elem {A B : Type} (f g : A → list B) (l : list A) :
  (∀ x, x ∈ l → f x = g x) → flat_map f l = flat_map g l.
Proof.
  induction l as [|a l IH]; intros Hext; [done|].
  simpl. rewrite Hext by left. rewrite IH; [done|].
  intros x Hx. apply Hext. by right.
Qed.

Lemma columns_by_label (d : Dict.t (list cell)) :
  NoDup (Dict.keys d) →
  flat_map (λ l, filter (λ c, c.1 = l) d) (Dict.keys d) = d.
Proof.
  unfold Dict.keys. induction d as [|[k v] d IH]; [done|].
  csimpl. intros [Hk Hnd]%NoDup_cons.
  rewrite filter_cons. simpl. rewrite decide_True by done.
  rewrite (filter_label_absent d k Hk). simpl. f_equal.
  rewrite <-(IH Hnd) at 2. apply flat_map_ext_elem.
  intros l Hl. rewrite filter_cons. simpl.
  rewrite decide_False; [done|]. by intros ->.
Qed.

Lemma column_order_elem t selected_outcomes (columns : list string) :
  Forall (λ l, l ∈ columns) (column_order t selected_outcomes columns).
Proof.
  unfold column_order, available_cols, extra_cols.
  apply Forall_app. split; apply Forall_forall; intros l Hl;
    apply list_elem_of_filter in Hl as [? ?]; done.
Qed.

Lemma column_order_perm t selected_outcomes (columns : list string) :
  NoDup selected_outcomes → NoDup columns →
  column_order t selected_outcomes columns ≡ₚ columns.
Proof.
  intros Hout Hcol. unfold column_order, extra_cols.
  set (av := available_cols t selected_outcomes columns).
  etrans; [|apply (filter_app_complement (λ col, col ∈ av) columns)].
  apply Permutation_app; [|done].
  assert (Hav : NoDup av).
  { apply NoDup_filter. rewrite order_cols_preferred.
    by apply preferred_NoDup. }
  apply NoDup_Permutation; [done|by apply NoDup_filter|].
  intros x. rewrite list_elem_of_filter. split; [|by intros [? _]].
  intros Hx. split; [done|].
  unfold av, available_cols in Hx. by apply list_elem_of_filter in Hx as [? _].
Qed.

Lemma reorder_columns_run t selected_outcomes data d w :
  heap w !! data = Some d →
  NoDup (DF.columns d) →
  ∃ d',
    reorder_columns t selected_outcomes data w
    = (Ok (fresh (dom (heap w))),
       World (disk w) (<[fresh (dom (heap w)) := d']> (heap w))
             (cache w) (reads w) (page w))
    ∧ nrows d' = nrows d
    ∧ DF.columns d' = column_order t selected_outcomes (DF.columns d)
    ∧ cols d' = flat_map (λ l, filter (λ c, c.1 = l) (cols d))
                         (column_order t selected_outcomes (DF.columns d)).
Proof.
  intros Hd Hnd.
  destruct (take_columns (column_order t selected_outcomes (DF.columns d)) d Hnd)
    as (d' & Htake & Hrows & Hcols & Hd'); [apply column_order_elem|].
  exists d'. split; [|done].
  unfold reorder_columns. unfold mbind at 1, M_bind at 1, Py.deref at 1.
  rewrite Hd. cbn [default from_option id].
  unfold Pd.take. unfold mbind at 1, M_bind at 1, Py.deref at 1.
  rewrite Hd. cbn [default from_option id]. rewrite Htake. done.
Qed.

(** C3: the Column Orderer.  The order is: [league], [season], [round]
    when the analysis is by round, the count column of each selected
    outcome in the order of the selection, the percentage column of each
    selected outcome in that order, all of these only where the table has
    such a column, and then the table's other columns in the order they
    had.  On a table with distinct labels the reordered table has its
    columns in this order.  The columns [round, extra, season,
    over_25_percentage, league, over_25_count], by round and for [over_25],
    come out as [league, season, round, over_25_count, over_25_percentage,
    extra]. *)
Theorem column_order_spec (t : analysis_type) (selected_outcomes : list string)
    (data : nat) (d : DataFrame) (w : world) :
  heap w !! data = Some d →
  NoDup (DF.columns d) →
  let order :=
    filter (λ col, col ∈ DF.columns d)
      (["league"; "season"]
       ++ match t with Giornata => ["round"] | Stagione => [] end
       ++ ((λ outcome, outcome +:+ "_count") <$> selected_outcomes)
       ++ ((λ outcome, outcome +:+ "_percentage") <$> selected_outcomes))
    ++ filter (λ col, col ∉ preferred t selected_outcomes) (DF.columns d) in
  column_order t selected_outcomes (DF.columns d) = order
  ∧ (∃ out d' w',
       reorder_columns t selected_outcomes data w = (Ok out, w')
       ∧ heap w' !! out = Some d'
       ∧ DF.columns d' = order)
  ∧ column_order Giornata ["over_25"]
      ["round"; "extra"; "season"; "over_25_percentage"; "league"; "over_25_count"]
    = ["league"; "season"; "round"; "over_25_count"; "over_25_percentage"; "extra"].
Proof.
  intros Hd Hnd order.
  assert (Horder : column_order t selected_outcomes (DF.columns d) = order).
  { apply column_order_preferred. }
  split_and!; [done| |by vm_compute].
  destruct (reorder_columns_run t selected_outcomes data d w Hd Hnd)
    as (d' & Hrun & _ & Hcols & _).
  eexists _, d', _. split; [exact Hrun|]. simpl.
  rewrite lookup_insert_eq. split; [done|]. by rewrite Hcols.
Qed.

(** C10: the reordering is a permutation of the table's columns.  For
    selected outcomes that are pairwise distinct, on a table with distinct
    labels, the reordered table has the columns of the input, each once and
    with the cells it had, and the same number of rows; the input table
    itself is not touched. *)
Theorem reorder_columns_permutation (t : analysis_type)
    (selected_outcomes : list string) (data : nat) (d : DataFrame) (w : world) :
  heap w !! data = Some d →
  NoDup (DF.columns d) →
  NoDup selected_outcomes →
  ∃ out d' w',
    reorder_columns t selected_outcomes data w = (Ok out, w')
    ∧ heap w' !! out = Some d'
    ∧ heap w' !! data = Some d
    ∧ cols d' ≡ₚ cols d
    ∧ DF.columns d' ≡ₚ DF.columns d
    ∧ NoDup (DF.columns d')
    ∧ nrows d' = nrows d
    ∧ (∀ col, DF.getitem col d' = DF.getitem col d).
Proof.
  intros Hd Hnd Hout.
  destruct (reorder_columns_run t selected_outcomes data d w Hd Hnd)
    as (d' & Hrun & Hrows & Hcols & Hd').
  assert (Hperm : cols d' ≡ₚ cols d).
  { rewrite Hd'.
    trans (flat_map (λ l, filter (λ c, c.1 = l) (cols d)) (Dict.keys (cols d))).
    - apply Permutation_flat_map. by apply column_order_perm.
    - by rewrite (columns_by_label (cols d) Hnd). }
  assert (Hk : DF.columns d' ≡ₚ DF.columns d).
  { unfold DF.columns, Dict.keys. by rewrite Hperm. }
  assert (Hnd' : NoDup (DF.columns d')) by (by rewrite Hk).
  eexists _, d', _. split; [exact Hrun|]. simpl.
  rewrite lookup_insert_eq. split_and!; try done.
  - rewrite lookup_insert_ne; [done|]. intros Heq.
    apply (is_fresh (dom (heap w))). rewrite Heq. apply elem_of_dom. eauto.
  - intros col. by apply dict_get_perm.
Qed.

(** ** The largest value of a column *)

Lemma float_lt_trans a b c :
  F64.ltb a b = true → F64.ltb b c = true → F64.ltb a c = true.
Proof.
  unfold F64.ltb, SFltb, SFcompare.
  destruct a as [sa|sa| |sa ma ea], b as [sb|sb| |sb mb eb],
           c as [sc|sc| |sc mc ec];
    try done;
    repeat match goal with s : bool |- _ => destruct s end; try done.
  - destruct (Z.compare_spec ea eb), (Z.compare_spec eb ec),
             (Z.compare_spec ea ec); try done; try lia; subst.
    change (Pos.compare_cont Eq ?x ?y) with (Pos.compare x y).
    destruct (Pos.compare_spec ma mb), (Pos.compare_spec mb mc),
             (Pos.compare_spec ma mc); simpl; try done; lia.
  - destruct (Z.compare_spec ea eb), (Z.compare_spec eb ec),
             (Z.compare_spec ea ec); try done; try lia; subst.
    change (Pos.compare_cont Eq ?x ?y) with (Pos.compare x y).
    destruct (Pos.compare_spec ma mb), (Pos.compare_spec mb mc),
             (Pos.compare_spec ma mc); simpl; try done; lia.
Qed.

Lemma float_lt_nan_r a b : F64.is_nan b = true → F64.ltb a b = false.
Proof. destruct b; try done. by destruct a. Qed.

Lemma float_lt_nan_l a b : F64.is_nan a = true → F64.ltb a b = false.
Proof. by destruct a. Qed.

Lemma nanmax_snoc xs x :
  F64.nanmax (xs ++ [x])
  = if F64.is_nan x then F64.nanmax xs
    else if F64.is_nan (F64.nanmax xs) then x
    else if F64.ltb (F64.nanmax xs) x then x else F64.nanmax xs.
Proof. unfold F64.nanmax. by rewrite foldl_app. Qed.

Lemma float_lt_irrefl x : F64.ltb x x = false.
Proof.
  destruct (F64.ltb x x) eqn:Hxx; [|done].
  unfold F64.ltb, SFltb, SFcompare in Hxx.
  destruct x as [s|s| |s m e]; try done; destruct s; try done;
    rewrite Z.compare_refl in Hxx;
    change (Pos.compare_cont Eq m m) with (Pos.compare m m) in Hxx;
    by rewrite Pos.compare_refl in Hxx.
Qed.

(** [nanmax] is the maximum: no value of the column is above it, it is
    one of the column's values unless it is NaN, and it is NaN only when
    every value is. *)
Lemma nanmax_is_max xs :
  (∀ x, x ∈ xs → F64.ltb (F64.nanmax xs) x = false)
  ∧ (F64.is_nan (F64.nanmax xs) = false → F64.nanmax xs ∈ xs)
  ∧ (F64.is_nan (F64.nanmax xs) = true → ∀ x, x ∈ xs → F64.is_nan x = true).
Proof.
  induction xs as [|x xs (IH1 & IH2 & IH3)] using rev_ind.
  { split_and!; [intros x Hx|done|intros _ x Hx]; by apply elem_of_nil in Hx. }
  rewrite nanmax_snoc. destruct (F64.is_nan x) eqn:Hx.
  { split_and!.
    - intros y [Hy| ->%list_elem_of_singleton]%elem_of_app; [auto|].
      by apply float_lt_nan_r.
    - intros Hm. apply elem_of_app. auto.
    - intros Hm y [Hy| ->%list_elem_of_singleton]%elem_of_app; auto. }
  destruct (F64.is_nan (F64.nanmax xs)) eqn:Hm.
  { split_and!.
    - intros y [Hy| ->%list_elem_of_singleton]%elem_of_app.
      + apply float_lt_nan_r. auto.
      + apply float_lt_irrefl.
    - intros _. apply elem_of_app. right. left.
    - congruence. }
  destruct (F64.ltb (F64.nanmax xs) x) eqn:Hlt.
  - split_and!.
    + intros y [Hy| ->%list_elem_of_singleton]%elem_of_app;
        [|apply float_lt_irrefl].
      destruct (F64.ltb x y) eqn:Hxy; [|done].
      rewrite <-(IH1 y Hy). symmetry. by eapply float_lt_trans.
    + intros _. apply elem_of_app. right. left.
    + congruence.
  - split_and!.
    + intros y [Hy| ->%list_elem_of_singleton]%elem_of_app; auto.
    + intros _. apply elem_of_app. auto.
    + congruence.
Qed.

(** ** Highlighting *)

Lemma astype_float_floats xs :
  Series.astype_float (CFloat <$> xs) = Some xs.
Proof.
  unfold Series.astype_float. apply mapM_Some.
  induction xs as [|x xs IH]; csimpl; by constructor.
Qed.

Lemma floats_of_floats xs : floats (CFloat <$> xs) = xs.
Proof. unfold floats. by rewrite astype_float_floats. Qed.

Lemma eq_max_floats xs :
  Series.eq_max (CFloat <$> xs)
  = Some ((λ x, F64.eqb x (F64.nanmax xs)) <$> xs).
Proof.
  destruct xs as [|x xs]; [done|].
  unfold Series.eq_max.
  assert (Series.dtype_of (CFloat <$> x :: xs) = float64) as ->.
  { unfold Series.dtype_of. csimpl.
    assert (forallb Series.is_num (CFloat <$> xs) = true) as ->; [|done].
    apply forallb_forall. intros c Hc%list_elem_of_In.
    by apply list_elem_of_fmap in Hc as [? [-> _]]. }
  by rewrite astype_float_floats.
Qed.

Lemma highlight_max_formatted highlight_cols (c : string * list cell) :
  (c.1 ∈ highlight_cols → is_pct c.1 = true) →
  highlight_max highlight_cols (formatted_column c).1 (formatted_column c).2
  = Some (column_styles highlight_cols (formatted_column c)).
Proof.
  intros Hpct. unfold highlight_max, column_styles, Str.mem. simpl.
  destruct (decide (c.1 ∈ highlight_cols)) as [Hin|Hnin].
  - rewrite bool_decide_eq_true_2 by done. rewrite (Hpct Hin).
    unfold Series.round2.
    change ((λ x, CFloat (F64.round2 x)) <$> floats c.2)
      with (CFloat ∘ F64.round2 <$> floats c.2).
    rewrite (list_fmap_compose F64.round2 CFloat).
    by rewrite eq_max_floats, floats_of_floats, <-list_fmap_compose.
  - rewrite bool_decide_eq_false_2 by done. done.
Qed.

Lemma highlight_cols_pct (selected_outcomes : list string) col :
  col ∈ (λ outcome, outcome +:+ "_percentage") <$> selected_outcomes →
  is_pct col = true.
Proof.
  intros [o [-> _]]%list_elem_of_fmap. apply endswith_spec. eauto.
Qed.

Lemma style_apply_formatted (selected_outcomes : list string) d :
  let highlight_cols := (λ outcome, outcome +:+ "_percentage") <$> selected_outcomes in
  style_apply (highlight_max highlight_cols) (formatted d)
  = Some ((λ c, (c.1, column_styles highlight_cols c)) <$> cols (formatted d)).
Proof.
  intros hl. unfold style_apply, formatted. cbn [cols].
  apply mapM_Some. apply Forall2_fmap_r, Forall_Forall2_diag.
  apply Forall_fmap, Forall_true. intros c. unfold compose. cbv beta.
  rewrite highlight_max_formatted; [done|].
  apply highlight_cols_pct.
Qed.

Lemma render_table_run df d selected_outcomes w :
  heap w !! df = Some d →
  DF.empty d = false →
  NoDup (DF.columns d) →
  numeric_pct d →
  let highlight_cols := (λ outcome, outcome +:+ "_percentage") <$> selected_outcomes in
  render_table df selected_outcomes w
  = (Ok (),
     World (disk w) (<[fresh (dom (heap w)) := formatted d]> (heap w))
       (cache w) (reads w)
       (page w ++ [Table (formatted d)
                     ((λ c, (c.1, column_styles highlight_cols c))
                        <$> cols (formatted d))])).
Proof.
  intros Hdf Hne Hnd Hnum hl. unfold render_table.
  unfold mbind at 1, M_bind at 1, Py.deref at 1.
  rewrite Hdf. cbn [default from_option id]. rewrite Hne.
  erewrite bind_ok by (by apply format_percentage_columns_run).
  unfold mbind at 1, M_bind at 1, Py.deref at 1. cbn [heap].
  rewrite lookup_insert_eq. cbn [default from_option id].
  rewrite style_apply_formatted. done.
Qed.

Lemma column_styles_marked highlight_cols (c : string * list cell) i :
  column_styles highlight_cols c !! i = Some highlight_css
  ↔ c.1 ∈ highlight_cols
    ∧ ∃ x, floats c.2 !! i = Some x
           ∧ F64.eqb x (F64.nanmax (floats c.2)) = true.
Proof.
  unfold column_styles. destruct (decide (c.1 ∈ highlight_cols)) as [Hin|Hnin];
    rewrite list_lookup_fmap.
  - destruct (floats c.2 !! i) as [x|]; simpl.
    + destruct (F64.eqb x _) eqn:E; split.
      * intros _. split; [done|]. eauto.
      * done.
      * unfold highlight_css. intros [=].
      * intros [_ (x' & [= <-] & He)]. congruence.
    + split; [done|]. by intros [_ (? & [=] & _)].
  - split; [|by intros [? _]].
    unfold highlight_css. destruct (c.2 !! i); intros [=].
Qed.

Lemma column_styles_values highlight_cols (c : string * list cell) i s :
  column_styles highlight_cols c !! i = Some s → s = highlight_css ∨ s = "".
Proof.
  unfold column_styles. destruct (decide (c.1 ∈ highlight_cols));
    rewrite list_lookup_fmap.
  - destruct (floats c.2 !! i) as [x|]; [|done]. simpl.
    destruct (F64.eqb x _); intros [= <-]; auto.
  - destruct (c.2 !! i); [|done]. intros [= <-]. auto.
Qed.

(** C4: highlighting.  For a table with rows and columns, distinct labels
    and numeric percentage columns, the page gets the formatted table with
    one style per cell.  A cell is marked if and only if its column is the
    percentage column of a selected outcome and its value equals the
    largest value of that column; every other cell has the empty style.
    The largest value is a maximum indeed: no value of the column is above
    it, and it is one of them unless all are missing.  In a column 50.0,
    50.0, 10.0 both rows at 50.0 are marked and the row at 10.0 is not. *)
Theorem render_table_highlight (df : nat) (d : DataFrame)
    (selected_outcomes : list string) (w : world) :
  heap w !! df = Some d →
  DF.empty d = false →
  NoDup (DF.columns d) →
  numeric_pct d →
  ∃ css w',
    render_table df selected_outcomes w = (Ok (), w')
    ∧ page w' = page w ++ [Table (formatted d) css]
    ∧ Forall2 (λ c st,
         st.1 = c.1
         ∧ (∀ i, st.2 !! i = Some highlight_css
                 ↔ (∃ outcome, outcome ∈ selected_outcomes
                               ∧ c.1 = outcome +:+ "_percentage")
                   ∧ ∃ x, floats c.2 !! i = Some x
                          ∧ F64.eqb x (F64.nanmax (floats c.2)) = true)
         ∧ (∀ i s, st.2 !! i = Some s → s = highlight_css ∨ s = ""))
       (cols (formatted d)) css
    ∧ (∀ xs, (∀ x, x ∈ xs → F64.ltb (F64.nanmax xs) x = false)
             ∧ (F64.is_nan (F64.nanmax xs) = false → F64.nanmax xs ∈ xs))
    ∧ highlight_max ["over_25_percentage"] "over_25_percentage"
        [CFloat (F64.dec 500 1); CFloat (F64.dec 500 1); CFloat (F64.dec 100 1)]
      = Some [highlight_css; highlight_css; ""].
Proof.
  intros Hdf Hne Hnd Hnum.
  eexists _, _. split; [by apply render_table_run|]. cbn [page].
  split; [done|]. split; [|split; [|by vm_compute]].
  2:{ intros xs. destruct (nanmax_is_max xs) as (? & ? & _). done. }
  apply Forall2_fmap_r, Forall_Forall2_diag, Forall_true. intros c. simpl.
  split_and!; [done| |apply column_styles_values].
  intros i. rewrite column_styles_marked, list_elem_of_fmap.
  naive_solver.
Qed.

(** ** Summary Aggregator *)

(** The body of the summary's loop *)
Local Abbreviation summary_step d :=
  (λ (summaries : Dict.t spec_float) (outcome : string),
     let col := outcome +:+ "_percentage" in
     if Str.mem col (DF.columns d) then
       s ← Py.or_raise KeyError (DF.getitem col d);
       m ← Py.or_raise TypeError (Series.mean s);
       mret (Dict.set outcome m summaries)
     else mret summaries).




(** *** The stacked table is well formed *)












(** ** The number of matches *)

Lemma pretty_N_char_digit x : is_Some (Ascii.is_nat (pretty_N_char x)).
Proof. unfold pretty_N_char. repeat case_match; simpl; eauto. Qed.

Lemma pretty_N_go_digits x s :
  Str.all_digits s = true → Str.all_digits (pretty_N_go x s) = true.
Proof.
  revert s. induction (N.lt_wf_0 x) as [x _ IH]; intros s Hs.
  assert (x = 0 ∨ 0 < x)%N as [->|?] by lia.
  - by rewrite pretty_N_go_0.
  - rewrite pretty_N_go_step by done. apply IH.
    { by apply N.div_lt. }
    simpl. rewrite Hs, andb_true_r. apply bool_decide_eq_true.
    apply pretty_N_char_digit.
Qed.

Lemma pretty_N_digits (x : N) : Str.all_digits (pretty x) = true.
Proof.
  unfold pretty, pretty_N. case_decide; [done|]. by apply pretty_N_go_digits.
Qed.

Lemma commas_digits s :
  Str.all_digits s = true →
  Str.remove_char "." (Py.replace_char "," "." (Py.commas s)) = s.
Proof.
  induction s as [|c s IH]; [done|].
  cbn [Str.all_digits]. intros [Hc Hs]%andb_true_iff.
  apply bool_decide_eq_true in Hc.
  assert (c ≠ "," ∧ c ≠ ".")%char as [H1 H2].
  { split; intros ->; by destruct Hc. }
  cbn [Py.commas]. cbn [Py.replace_char Str.remove_char].
  rewrite (decide_False (P := c = ","%char)) by done.
  rewrite (decide_False (P := c = "."%char)) by done.
  f_equal. case_bool_decide.
  - cbn [Py.replace_char Str.remove_char].
    rewrite (decide_True (P := ","%char = ","%char)) by done.
    rewrite (decide_True (P := "."%char = "."%char)) by done. by apply IH.
  - by apply IH.
Qed.

Lemma dotted_digits z : Str.remove_char "." (dotted z) = pretty z.
Proof.
  unfold dotted, Py.format_commas. destruct z as [|p|p].
  - done.
  - rewrite bool_decide_eq_false_2 by lia.
    change ("" +:+ ?s) with s. rewrite commas_digits; [done|].
    apply pretty_N_digits.
  - rewrite bool_decide_eq_true_2 by lia.
    change ("-" +:+ ?s) with (String "-" s).
    cbn [Py.replace_char Str.remove_char].
    rewrite (decide_False (P := "-"%char = ","%char)) by done.
    rewrite (decide_False (P := "-"%char = "."%char)) by done.
    rewrite commas_digits; [done|]. apply pretty_N_digits.
Qed.






(* ===================================================================== *)
(** * Part III: the statements at sample inputs                           *)
(* ===================================================================== *)

(** The resolver on a directory with two league folders and a stray CSV
    file: the folders win, SerieA is mapped to its folder and the file
    gives no league. *)
Lemma get_available_leagues_sample :
  NoDup (d_name <$> Sample.listing)
  ∧ Dict.keys (get_available_leagues Sample.base Sample.listing)
    ≡ₚ ["SerieB"; "SerieA"]
  ∧ StronglySorted String.le
      (Dict.keys (get_available_leagues Sample.base Sample.listing))
  ∧ Dict.get "SerieA" (get_available_leagues Sample.base Sample.listing)
    = Some ["data"; "SerieA"]
  ∧ Dict.get "default" (get_available_leagues Sample.base Sample.listing)
    = None.
Proof.
  assert (Hnd : NoDup (d_name <$> Sample.listing)).
  { apply (bool_decide_unpack _). by vm_compute. }
  split; [exact Hnd|].
  destruct (get_available_leagues_spec Sample.base Sample.listing Hnd)
    as [Hsub _].
  destruct Hsub as (Hperm & _ & Hsorted & Hget); [done|].
  split_and!.
  - exact Hperm.
  - exact Hsorted.
  - by rewrite Hget.
  - by rewrite Hget.
Defined.

(** The merge of SerieA and SerieB when only SerieA has its file: one
    warning, for SerieB, and a table that is SerieA's, tagged. *)
Lemma merge_selection_sample :
  Forall (λ league, league ∈ Dict.keys Sample.leagues) ["SerieA"; "SerieB"]
  ∧ page (merge_selection Sample.leagues Stagione ["SerieA"; "SerieB"]
            (fresh_session Sample.only_a)).2
    = [missing_warning Stagione "SerieB"]
  ∧ ∃ data,
      (merge_selection Sample.leagues Stagione ["SerieA"; "SerieB"]
         (fresh_session Sample.only_a)).1 = Ok data
      ∧ heap (merge_selection Sample.leagues Stagione ["SerieA"; "SerieB"]
                (fresh_session Sample.only_a)).2 !! data
        = Some (tagged "SerieA" Sample.season_2023).
Proof.
  assert (Hsel : Forall (λ league, league ∈ Dict.keys Sample.leagues)
                        ["SerieA"; "SerieB"]).
  { apply (bool_decide_unpack _). by vm_compute. }
  split; [exact Hsel|].
  destruct (merge_selection_spec Sample.base Sample.listing Stagione
              ["SerieA"; "SerieB"] ["over_25"] (fresh_session Sample.only_a) Hsel)
    as (_ & _ & Hpage & Hok & _).
  split.
  - vm_compute in Hpage. vm_compute. exact Hpage.
  - destruct Hok as (data & combined & Hdata & Hheap & -> & _).
    { by vm_compute. }
    exists data. split; [exact Hdata|]. etrans; [exact Hheap|]. by vm_compute.
Defined.

(** The reordering of the sample table: its three columns in the
    preferred order. *)
Lemma column_order_sample :
  heap Sample.with_two_rows !! 0%nat = Some Sample.two_rows
  ∧ NoDup (DF.columns Sample.two_rows)
  ∧ ∃ out d' w',
      reorder_columns Stagione ["over_25"] 0 Sample.with_two_rows = (Ok out, w')
      ∧ heap w' !! out = Some d'
      ∧ DF.columns d' = ["league"; "season"; "over_25_percentage"].
Proof.
  assert (Hnd : NoDup (DF.columns Sample.two_rows)).
  { apply (bool_decide_unpack _). by vm_compute. }
  split; [done|]. split; [exact Hnd|].
  destruct (column_order_spec Stagione ["over_25"] 0 Sample.two_rows
              Sample.with_two_rows eq_refl Hnd)
    as (_ & (out & d' & w' & Hrun & Hheap & Hcols) & _).
  exists out, d', w'. split_and!; [done..|].
  rewrite Hcols. by vm_compute.
Defined.

(** The reordering of the sample table keeps its columns. *)
Lemma reorder_columns_sample :
  heap Sample.with_two_rows !! 0%nat = Some Sample.two_rows
  ∧ NoDup (DF.columns Sample.two_rows)
  ∧ NoDup ["over_25"; "gg"]
  ∧ ∃ out d' w',
      reorder_columns Stagione ["over_25"; "gg"] 0 Sample.with_two_rows
      = (Ok out, w')
      ∧ heap w' !! out = Some d'
      ∧ cols d' ≡ₚ cols Sample.two_rows.
Proof.
  assert (Hnd : NoDup (DF.columns Sample.two_rows)).
  { apply (bool_decide_unpack _). by vm_compute. }
  assert (Hout : NoDup ["over_25"; "gg"]).
  { apply (bool_decide_unpack _). by vm_compute. }
  split; [done|]. split; [exact Hnd|]. split; [exact Hout|].
  destruct (reorder_columns_permutation Stagione ["over_25"; "gg"] 0
              Sample.two_rows Sample.with_two_rows eq_refl Hnd Hout)
    as (out & d' & w' & Hrun & Hheap & _ & Hperm & _).
  by exists out, d', w'.
Defined.

Lemma two_rows_numeric : numeric_pct Sample.two_rows.
Proof.
  unfold numeric_pct. repeat constructor; by vm_compute.
Qed.

(** The sample table on the page: formatted, with one style per cell. *)
Lemma render_table_sample :
  heap Sample.with_two_rows !! 0%nat = Some Sample.two_rows
  ∧ DF.empty Sample.two_rows = false
  ∧ NoDup (DF.columns Sample.two_rows)
  ∧ numeric_pct Sample.two_rows
  ∧ ∃ css w',
      render_table 0 ["over_25"] Sample.with_two_rows = (Ok (), w')
      ∧ page w' = [Table (formatted Sample.two_rows) css].
Proof.
  assert (Hnd : NoDup (DF.columns Sample.two_rows)).
  { apply (bool_decide_unpack _). by vm_compute. }
  split; [done|]. split; [done|]. split; [exact Hnd|].
  split; [exact two_rows_numeric|].
  destruct (render_table_highlight 0 Sample.two_rows ["over_25"]
              Sample.with_two_rows eq_refl eq_refl Hnd two_rows_numeric)
    as (css & w' & Hrun & Hpage & _).
  by exists css, w'.
Defined.


(** The formatter leaves the sample table as it was. *)
Lemma format_percentage_columns_sample :
  heap Sample.with_two_rows !! 0%nat = Some Sample.two_rows
  ∧ heap (format_percentage_columns 0 Sample.with_two_rows).2 !! 0%nat
    = Some Sample.two_rows.
Proof.
  split; [done|].
  exact (proj1 (proj2 (format_percentage_columns_spec 0 Sample.two_rows
                         Sample.with_two_rows eq_refl))).
Defined.


(** SerieA's table is tagged in the object the loader returned. *)
Lemma merge_tags_in_place_sample :
  Dict.get "SerieA" Sample.leagues = Some ["data"; "SerieA"]
  ∧ source (fresh_session Sample.only_a) Sample.file_a = Some Sample.season_2023
  ∧ ∃ r w1 w2,
      load_csv Sample.file_a (fresh_session Sample.only_a) = (Ok r, w1)
      ∧ heap w1 !! r = Some Sample.season_2023
      ∧ load_selected Sample.leagues Stagione ["SerieA"] []
          (fresh_session Sample.only_a) = (Ok [r], w2)
      ∧ heap w2 = <[r := tagged "SerieA" Sample.season_2023]> (heap w1).
Proof.
  assert (Hget : Dict.get "SerieA" Sample.leagues = Some ["data"; "SerieA"])
    by (by vm_compute).
  assert (Hsrc : source (fresh_session Sample.only_a)
                   (["data"; "SerieA"] /: analysis_file Stagione)
                 = Some Sample.season_2023) by (by vm_compute).
  split; [exact Hget|]. split; [exact Hsrc|].
  destruct (merge_tags_in_place Sample.leagues Stagione "SerieA"
              ["data"; "SerieA"] Sample.season_2023
              (fresh_session Sample.only_a) Hget Hsrc)
    as (r & w1 & w2 & Hload & Hr & Hsel & Hheap & _).
  by exists r, w1, w2.
Defined.


(** The scenario of the design document: two leagues, one season each of
    20 matches with 10 over 2.5 goals.  Both selected, by season, for
    [over_25]: the page shows a table of 2 rows, 40 matches in all and a
    mean of 50.0. *)
Example two_leagues_one_season :
  ∃ shown css w',
    main Sample.base Sample.listing ["SerieA"; "SerieB"] Stagione ["over_25"]
         (fresh_session Sample.both_files) = (Ok (), w')
    ∧ page w' = [Table shown css;
                 Metric "Partite analizzate" "40";
                 Means (Some [("over_25", F64.dec 500 1)])]
    ∧ nrows shown = 2%nat
    ∧ DF.columns shown
      = ["league"; "season"; "over_25_count"; "over_25_percentage"; "total_matches"]
    ∧ DF.getitem "league" shown = Some [CStr "SerieA"; CStr "SerieB"].
Proof.
  eexists _, _, _. split; [by vm_compute|]. by vm_compute.
Qed.

(* ===================================================================== *)
(** * Part IV: further properties of the code                             *)
(* ===================================================================== *)

(** ** The loader reads every file once *)

Lemma load_csv_reads path w :
  (∀ p, p ∈ reads w ↔ is_Some (cache w !! p)) →
  NoDup (reads w) →
  let w' := (load_csv path w).2 in
  (∀ p, p ∈ reads w' ↔ is_Some (cache w' !! p))
  ∧ NoDup (reads w')
  ∧ (∀ p, p ∈ reads w' ↔ p ∈ reads w ∨ (p = path ∧ is_Some (disk w !! path))).
Proof.
  intros Hrc Hnd. unfold load_csv, St.cache_data.
  destruct (cache w !! path) as [v|] eqn:Hc.
  { simpl. split_and!; [done..|]. intros p. split; [auto|].
    intros [?|[-> _]]; [done|]. apply Hrc. eauto. }
  destruct (disk w !! path) as [table|] eqn:Hd.
  - rewrite (load_csv_body_present _ _ _ Hd). simpl.
    assert (Hnew : path ∉ reads w).
    { intros Hin%Hrc. rewrite Hc in Hin. by destruct Hin. }
    split_and!.
    + intros p. rewrite elem_of_app, list_elem_of_singleton.
      destruct (decide (path = p)) as [<-|Hne].
      * rewrite lookup_insert_eq. split; eauto.
      * rewrite lookup_insert_ne by done. rewrite Hrc.
        split; [intros [?|?]; [done|congruence]|auto].
    + apply NoDup_app. split_and!; [done| |apply NoDup_singleton].
      by intros p Hp ->%list_elem_of_singleton.
    + intros p. rewrite elem_of_app, list_elem_of_singleton.
      split; [intros [?| ->]; eauto|intros [?|[-> _]]; auto].
  - rewrite (load_csv_body_absent _ _ Hd). simpl.
    split_and!; [done..|]. intros p. split; [auto|].
    intros [?|[_ [? ?]]]; [done|congruence].
Qed.

(** X1: in a session, each file that was asked for and exists has been
    parsed exactly once, and nothing else has been parsed, whatever the
    number and the order of the requests. *)
Theorem load_csv_reads_once (files : gmap (list string) DataFrame)
    (reqs : list (list string)) :
  let w := after_loads reqs (fresh_session files) in
  NoDup (reads w)
  ∧ ∀ path, path ∈ reads w ↔ path ∈ reqs ∧ is_Some (files !! path).
Proof.
  intros w.
  assert (Hgen : ∀ reqs w0,
    (∀ p, p ∈ reads w0 ↔ is_Some (cache w0 !! p)) →
    NoDup (reads w0) →
    (∀ p, p ∈ reads (after_loads reqs w0) ↔ is_Some (cache (after_loads reqs w0) !! p))
    ∧ NoDup (reads (after_loads reqs w0))
    ∧ ∀ p, p ∈ reads (after_loads reqs w0)
           ↔ p ∈ reads w0 ∨ (p ∈ reqs ∧ is_Some (disk w0 !! p))).
  { clear. induction reqs as [|q reqs IH]; intros w0 Hrc Hnd.
    - simpl. split_and!; [done..|]. intros p. rewrite elem_of_nil. naive_solver.
    - destruct (load_csv_reads q w0 Hrc Hnd) as (Hrc1 & Hnd1 & Hin1).
      destruct (IH _ Hrc1 Hnd1) as (Hrc2 & Hnd2 & Hin2).
      change (after_loads (q :: reqs) w0)
        with (after_loads reqs (load_csv q w0).2).
      split_and!; [done..|]. intros p. rewrite Hin2, Hin1, load_csv_disk.
      rewrite elem_of_cons. naive_solver. }
  destruct (Hgen reqs (fresh_session files)) as (_ & Hnd & Hin).
  - intros p. simpl. rewrite lookup_empty, elem_of_nil. split; [done|].
    by intros [? ?].
  - apply NoDup_nil_2.
  - unfold w. split; [exact Hnd|]. intros p. rewrite Hin. simpl.
    rewrite elem_of_nil. naive_solver.
Qed.

(** ** The catalog does not depend on the order of the listing *)

Lemma sorted_paths_perm (l1 l2 : list (list string)) :
  l1 ≡ₚ l2 → sorted_paths l1 = sorted_paths l2.
Proof.
  intros Hperm. unfold sorted_paths. apply (Sorted_unique PathOps.le).
  - apply Sorted_merge_sort, _.
  - apply Sorted_merge_sort, _.
  - by rewrite !merge_sort_Permutation.
Qed.

(** X2: the catalog is the same whatever the order in which the directory
    lists its entries. *)
Theorem get_available_leagues_order (base : list string) (ls1 ls2 : list dirent) :
  ls1 ≡ₚ ls2 →
  get_available_leagues base ls1 = get_available_leagues base ls2.
Proof.
  intros Hperm. unfold get_available_leagues.
  assert (Hsub : (λ e, base /: d_name e) <$> filter (λ e, d_is_dir e = true) ls1
                 ≡ₚ (λ e, base /: d_name e) <$> filter (λ e, d_is_dir e = true) ls2)
    by (by rewrite Hperm).
  assert (Hcsv : (λ e, base /: d_name e)
                   <$> filter (λ e, Str.endswith (d_name e) ".csv" = true) ls1
                 ≡ₚ (λ e, base /: d_name e)
                   <$> filter (λ e, Str.endswith (d_name e) ".csv" = true) ls2)
    by (by rewrite Hperm).
  destruct ((λ e, base /: d_name e) <$> filter (λ e, d_is_dir e = true) ls1)
    as [|c1 cs1] eqn:H1,
    ((λ e, base /: d_name e) <$> filter (λ e, d_is_dir e = true) ls2)
    as [|c2 cs2] eqn:H2.
  - destruct ((λ e, base /: d_name e)
                <$> filter (λ e, Str.endswith (d_name e) ".csv" = true) ls1)
      as [|f1 fs1],
      ((λ e, base /: d_name e)
                <$> filter (λ e, Str.endswith (d_name e) ".csv" = true) ls2)
      as [|f2 fs2]; try done.
    + by apply Permutation_nil_cons in Hcsv.
    + symmetry in Hcsv. by apply Permutation_nil_cons in Hcsv.
  - by apply Permutation_nil_cons in Hsub.
  - symmetry in Hsub. by apply Permutation_nil_cons in Hsub.
  - by rewrite (sorted_paths_perm _ _ Hsub).
Qed.

(** ** What a render may do to the files and the memo *)

Create HintDb respects discriminated.

Section respects.
Context (R : relation world) `{!PreOrder R}.
Context (may_load : list string → Prop).
Hypothesis R_heap_page :
  ∀ w h pg, R w (World (disk w) h (cache w) (reads w) pg).
Hypothesis R_load : ∀ path, may_load path → respects R (load_csv path).

Lemma respects_ret {A} (a : A) : respects R (mret a).
Proof. intros w. reflexivity. Qed.

Lemma respects_bind {A B} (m : M A) (f : A → M B) :
  respects R m → (∀ a, respects R (f a)) → respects R (m ≫= f).
Proof.
  intros Hm Hf w. unfold mbind, M_bind. specialize (Hm w).
  destruct (m w) as [[a|e|] w1]; simpl in *; [|done..].
  etrans; [exact Hm|apply Hf].
Qed.

Lemma respects_ret_bind {A B} (a : A) (f : A → M B) :
  respects R (f a) → respects R (mret a ≫= f).
Proof. intros Hf w. apply Hf. Qed.

Lemma respects_raise {A} e : respects R (Py.raise (A := A) e).
Proof. intros w. reflexivity. Qed.

Lemma respects_raise_bind {A B} e (f : A → M B) :
  respects R (Py.raise e ≫= f).
Proof. intros w. reflexivity. Qed.

Lemma respects_stop {A} : respects R (St.stop (A := A)).
Proof. intros w. reflexivity. Qed.

Lemma respects_or_raise {A} e (o : option A) : respects R (Py.or_raise e o).
Proof. destruct o; [apply respects_ret|apply respects_raise]. Qed.

Lemma respects_try_except {A} (body : M A) e (handler : M A) :
  respects R body → respects R handler →
  respects R (Py.try_except body e handler).
Proof.
  intros Hb Hh w. unfold Py.try_except. specialize (Hb w).
  destruct (body w) as [[a|e'|] w1]; simpl in *; [done| |done].
  case_decide; [|done]. etrans; [exact Hb|apply Hh].
Qed.

Lemma respects_alloc d : respects R (Py.alloc d).
Proof. intros w. apply R_heap_page. Qed.

Lemma respects_deref r : respects R (Py.deref r).
Proof. intros w. reflexivity. Qed.

Lemma respects_mutate r f : respects R (Py.mutate r f).
Proof. intros w. apply R_heap_page. Qed.

Lemma respects_emit e : respects R (St.emit e).
Proof. intros w. apply R_heap_page. Qed.

#[local] Hint Resolve respects_ret respects_raise respects_stop
  respects_or_raise respects_alloc respects_deref respects_mutate
  respects_emit : respects.

(** The composite computations are handled by one tactic: it follows the
    binds and the case distinctions down to the primitives. *)
Ltac respects_step :=
  first
    [ solve [auto with respects]
    | apply respects_bind; [|intros ?]
    | apply respects_try_except
    | match goal with
      | |- respects _ (match ?x with _ => _ end) => destruct x
      | |- respects _ (let _ := _ in _) => cbv zeta
      end ].

Lemma respects_for_each {A} (l : list A) (body : A → M ()) :
  (∀ x, respects R (body x)) → respects R (for_each l body).
Proof.
  intros Hb. induction l as [|x l IH]; cbn [for_each]; repeat respects_step; auto.
Qed.

Lemma respects_for_fold {A S} (l : list A) (s : S) (body : S → A → M S) :
  (∀ s x, respects R (body s x)) → respects R (for_fold l s body).
Proof.
  intros Hb. revert s.
  induction l as [|x l IH]; intros s; cbn [for_fold]; repeat respects_step; auto.
Qed.

Lemma respects_mapM {A B} (f : A → M B) (l : list A) :
  (∀ x, respects R (f x)) → respects R (mapM f l).
Proof.
  intros Hf. induction l as [|x l IH]; cbn [mapM]; repeat respects_step; auto.
Qed.

#[local] Hint Resolve respects_for_each respects_for_fold respects_mapM
  : respects.

(** The merge loads the files of the selected leagues only. *)
Lemma respects_load_selected available_leagues t selected_leagues dfs :
  (∀ league path,
     league ∈ selected_leagues →
     league_file available_leagues t league = Some path → may_load path) →
  respects R (load_selected available_leagues t selected_leagues dfs).
Proof.
  revert dfs. induction selected_leagues as [|league rest IH]; intros dfs Hsel;
    cbn [load_selected]; [apply respects_ret|].
  assert (Hrest : ∀ dfs',
    respects R (load_selected available_leagues t rest dfs')).
  { intros dfs'. apply IH. intros l p Hl. apply Hsel. by right. }
  specialize (Hsel league). unfold league_file in Hsel.
  destruct (Dict.get league available_leagues) as [lp|]; cbn [Py.or_raise].
  - apply respects_ret_bind.
    assert (Hload : respects R (load_csv (lp /: analysis_file t))).
    { apply R_load, Hsel; [by left|done]. }
    unfold St.warning. repeat respects_step; auto.
  - apply respects_raise_bind.
Qed.

Lemma respects_merge_selection available_leagues t selected_leagues :
  (∀ league path,
     league ∈ selected_leagues →
     league_file available_leagues t league = Some path → may_load path) →
  respects R (merge_selection available_leagues t selected_leagues).
Proof.
  intros Hsel. unfold merge_selection, Pd.concat, St.error.
  apply respects_bind; [by apply respects_load_selected|intros dfs].
  repeat respects_step.
Qed.

Lemma respects_reorder_columns t selected_outcomes data :
  respects R (reorder_columns t selected_outcomes data).
Proof. unfold reorder_columns, Pd.take. repeat respects_step. Qed.
#[local] Hint Resolve respects_reorder_columns : respects.

Lemma respects_format_percentage_columns df :
  respects R (format_percentage_columns df).
Proof.
  unfold format_percentage_columns, Py.copy. repeat respects_step.
  apply respects_for_each. intros col. repeat respects_step.
Qed.
#[local] Hint Resolve respects_format_percentage_columns : respects.

Lemma respects_render_table df selected_outcomes :
  respects R (render_table df selected_outcomes).
Proof. unfold render_table, St.info. repeat respects_step. Qed.
#[local] Hint Resolve respects_render_table : respects.

Lemma respects_compute_summary_metrics df selected_outcomes :
  respects R (compute_summary_metrics df selected_outcomes).
Proof.
  unfold compute_summary_metrics. repeat respects_step.
  apply respects_for_fold. intros s x. repeat respects_step.
Qed.
#[local] Hint Resolve respects_compute_summary_metrics : respects.

Lemma respects_total_matches_of data : respects R (total_matches_of data).
Proof. unfold total_matches_of. repeat respects_step. Qed.
#[local] Hint Resolve respects_total_matches_of : respects.

Lemma respects_show_total_matches total :
  respects R (show_total_matches total).
Proof.
  unfold show_total_matches, St.metric, Py.int. repeat respects_step.
Qed.
#[local] Hint Resolve respects_show_total_matches : respects.

Lemma respects_main base ls selected_leagues t selected_outcomes :
  (∀ league path,
     league ∈ selected_leagues →
     league_file (get_available_leagues base ls) t league = Some path →
     may_load path) →
  respects R (main base ls selected_leagues t selected_outcomes).
Proof.
  intros Hsel. unfold main, St.sidebar_warning, St.info.
  pose proof (respects_merge_selection _ t _ Hsel) as Hmerge.
  repeat respects_step.
Qed.

End respects.

Global Instance files_kept_preorder : PreOrder files_kept.
Proof.
  split.
  - by intros w.
  - intros w1 w2 w3 [Hd Hs] [Hd' Hs']. split; [congruence|].
    intros path. by rewrite Hs', Hs.
Qed.

Lemma keeps_main base ls selected_leagues t selected_outcomes :
  respects files_kept (main base ls selected_leagues t selected_outcomes).
Proof.
  apply (respects_main files_kept (λ _, True)); [done| |done].
  intros path _ w. split; [apply load_csv_disk|apply load_csv_source].
Qed.

Global Instance reads_grow_preorder may_load : PreOrder (reads_grow may_load).
Proof.
  split.
  - intros w. split; [done|]. intros Hc. split; [done|]. auto.
  - intros w1 w2 w3 [Hd H12] [Hd' H23]. split; [congruence|].
    intros Hc. destruct (H12 Hc) as [Hc2 Hin2].
    destruct (H23 Hc2) as [Hc3 Hin3]. split; [done|].
    intros p Hp. destruct (Hin3 p Hp) as [Hp2|[? ?]].
    + by apply Hin2.
    + right. split; [done|]. by rewrite <-Hd.
Qed.

Lemma reads_grow_main may_load base ls selected_leagues t selected_outcomes :
  (∀ league path,
     league ∈ selected_leagues →
     league_file (get_available_leagues base ls) t league = Some path →
     may_load path) →
  respects (reads_grow may_load)
    (main base ls selected_leagues t selected_outcomes).
Proof.
  apply (respects_main (reads_grow may_load) may_load).
  - intros w h pg. split; [done|]. intros Hc. split; [done|]. auto.
  - intros path Hpath w. split; [apply load_csv_disk|]. intros [Hrc Hnd].
    destruct (load_csv_reads path w Hrc Hnd) as (Hrc' & Hnd' & Hin).
    split; [done|]. intros p Hp. apply Hin in Hp as [?|[-> ?]]; auto.
Qed.

(** X3: renders do not disturb later renders.  After any number of
    renders, with any choices, the files are as they were and the loader
    serves for every path what it served before; in a session that
    started with nothing loaded this is the table of the file on disk, and
    a merge collects the tables and gives the warnings it would have given
    at the start: the [league] column written into a loaded table never
    reaches a later load. *)
Theorem renders_keep_files (base : list string) (ls : list dirent)
    (choices : list (list string * analysis_type * list string))
    (w : world) :
  let w' := after_renders base ls choices w in
  disk w' = disk w
  ∧ (∀ path, source w' path = source w path)
  ∧ (∀ files path,
       w = fresh_session files → source w' path = files !! path)
  ∧ (∀ available_leagues t selected_leagues,
       collected w' available_leagues t selected_leagues
       = collected w available_leagues t selected_leagues
       ∧ warnings w' available_leagues t selected_leagues
         = warnings w available_leagues t selected_leagues).
Proof.
  intros w'.
  assert (Hkeep : disk w' = disk w ∧ ∀ path, source w' path = source w path).
  { unfold w', after_renders. clear w'. revert w.
    induction choices as [|c choices IH]; intros w; [done|].
    cbn [foldl]. destruct (IH (main base ls c.1.1 c.1.2 c.2 w).2) as [Hd Hs].
    destruct (keeps_main base ls c.1.1 c.1.2 c.2 w) as [Hd' Hs'].
    split; [congruence|]. intros path. by rewrite Hs, Hs'. }
  destruct Hkeep as [Hd Hs]. split_and!; [done..| |].
  - intros files path ->. rewrite Hs. unfold source, fresh_session. simpl.
    by rewrite lookup_empty.
  - intros available_leagues t selected_leagues. split.
    + by apply collected_ext.
    + by apply warnings_ext.
Qed.

(** ** More on the order of the columns *)

Lemma column_order_elem_iff t selected_outcomes (columns : list string) col :
  col ∈ column_order t selected_outcomes columns ↔ col ∈ columns.
Proof.
  rewrite column_order_preferred, elem_of_app, !list_elem_of_filter.
  destruct (decide (col ∈ preferred t selected_outcomes)); naive_solver.
Qed.

Lemma filter_none {A : Type} (P : A → Prop) `{!∀ x, Decision (P x)} (l : list A) :
  (∀ x, x ∈ l → ¬ P x) → filter P l = [].
Proof.
  induction l as [|a l IH]; intros Hno; [done|].
  rewrite filter_cons, decide_False by (apply Hno; left).
  apply IH. intros x Hx. apply Hno. by right.
Qed.

(** X4: ordering the columns twice is ordering them once, and the order
    holds every label of the table and no other. *)
Theorem column_order_idempotent (t : analysis_type)
    (selected_outcomes columns : list string) :
  column_order t selected_outcomes (column_order t selected_outcomes columns)
  = column_order t selected_outcomes columns
  ∧ ∀ col, col ∈ column_order t selected_outcomes columns ↔ col ∈ columns.
Proof.
  split; [|apply column_order_elem_iff].
  rewrite (column_order_preferred t selected_outcomes
             (column_order t selected_outcomes columns)).
  assert (Hav : filter (λ col, col ∈ column_order t selected_outcomes columns)
                       (preferred t selected_outcomes)
                = filter (λ col, col ∈ columns) (preferred t selected_outcomes)).
  { apply list_filter_iff. intros col. apply column_order_elem_iff. }
  rewrite Hav. rewrite !(column_order_preferred t selected_outcomes columns).
  f_equal. rewrite filter_app.
  rewrite (filter_none (λ col, col ∉ preferred t selected_outcomes)
             (filter (λ col, col ∈ columns) (preferred t selected_outcomes))).
  - simpl. by apply list_filter_filter_l.
  - intros x [_ Hx]%list_elem_of_filter Hnot. done.
Qed.

Lemma league_not_suffixed (selected_outcomes : list string) :
  "league" ∉ ((λ o, o +:+ "_count") <$> selected_outcomes)
             ++ ((λ o, o +:+ "_percentage") <$> selected_outcomes).
Proof.
  intros [Hin|Hin]%elem_of_app;
    apply list_elem_of_fmap in Hin as [o [Heq _]];
    by eapply not_suffixed in Heq.
Qed.

Lemma league_in_combined (found : list (string * DataFrame)) :
  found ≠ [] →
  "league" ∈ DF.columns (DF.concat ((λ lt, tagged lt.1 lt.2) <$> found)).
Proof.
  intros Hne. apply dict_get_is_Some.
  change (is_Some (DF.getitem "league"
                     (DF.concat ((λ lt, tagged lt.1 lt.2) <$> found)))).
  rewrite concat_league_column by done. eauto.
Qed.

(** X5: the table of a merge that found at least one league is shown
    with [league] as its first column, and nowhere else. *)
Theorem league_column_first (t : analysis_type) (selected_outcomes : list string)
    (found : list (string * DataFrame)) (data : nat) (w : world) :
  found ≠ [] →
  heap w !! data = Some (DF.concat ((λ lt, tagged lt.1 lt.2) <$> found)) →
  ∃ out d' w' rest,
    reorder_columns t selected_outcomes data w = (Ok out, w')
    ∧ heap w' !! out = Some d'
    ∧ DF.columns d' = "league" :: rest
    ∧ "league" ∉ rest.
Proof.
  intros Hne Hdata.
  set (d := DF.concat ((λ lt, tagged lt.1 lt.2) <$> found)) in *.
  assert (Hnd : NoDup (DF.columns d)).
  { unfold d. rewrite concat_columns. apply union_labels_NoDup. }
  assert (Hin : "league" ∈ DF.columns d) by (by apply league_in_combined).
  destruct (reorder_columns_run t selected_outcomes data d w Hdata Hnd)
    as (d' & Hrun & _ & Hcols & _).
  eexists _, d', _, _. split; [exact Hrun|]. simpl.
  rewrite lookup_insert_eq. split; [done|]. rewrite Hcols.
  rewrite column_order_preferred. unfold preferred. cbn [app].
  rewrite filter_cons, decide_True by done. split; [done|].
  rewrite elem_of_app, !list_elem_of_filter. intros [[_ Hl]|[Hl _]].
  - destruct t; cbn [app] in Hl.
    + apply elem_of_cons in Hl as [?|Hl]; [done|].
      by apply league_not_suffixed in Hl.
    + apply elem_of_cons in Hl as [?|Hl]; [done|].
      apply elem_of_cons in Hl as [?|Hl]; [done|].
      by apply league_not_suffixed in Hl.
  - apply Hl. unfold preferred. left.
Qed.

(** ** Which cells are marked *)

Lemma float_eq_refl x : F64.is_nan x = false → F64.eqb x x = true.
Proof.
  unfold F64.eqb, SFeqb, SFcompare.
  destruct x as [s|s| |s m e]; try done; destruct s; intros _; try done;
    rewrite Z.compare_refl;
    change (Pos.compare_cont Eq m m) with (Pos.compare m m);
    by rewrite Pos.compare_refl.
Qed.

Lemma float_eq_nan_l x y : F64.is_nan x = true → F64.eqb x y = false.
Proof. by destruct x. Qed.

(** X6: on a column of floats, [highlight_max] gives one style per row.
    In the percentage column of a selected outcome at least one row is
    marked as soon as one value is not missing, and a missing value is
    never marked; in any other column no row is marked. *)
Theorem highlight_max_rows (highlight_cols : list string) (name : string)
    (xs : list spec_float) :
  ∃ styles,
    highlight_max highlight_cols name (CFloat <$> xs) = Some styles
    ∧ length styles = length xs
    ∧ (name ∈ highlight_cols →
       (∃ x, x ∈ xs ∧ F64.is_nan x = false) →
       highlight_css ∈ styles)
    ∧ (∀ i x, xs !! i = Some x → F64.is_nan x = true → styles !! i = Some "")
    ∧ (name ∉ highlight_cols → ∀ s, s ∈ styles → s = "").
Proof.
  unfold highlight_max, Str.mem.
  destruct (decide (name ∈ highlight_cols)) as [Hin|Hnin].
  - rewrite bool_decide_eq_true_2 by done. rewrite eq_max_floats.
    eexists. split; [done|]. split_and!.
    + by rewrite !length_fmap.
    + intros _ (x & Hx & Hnan).
      destruct (nanmax_is_max xs) as (_ & Hmem & Hall).
      assert (Hm : F64.is_nan (F64.nanmax xs) = false).
      { destruct (F64.is_nan (F64.nanmax xs)) eqn:E; [|done].
        rewrite (Hall eq_refl x Hx) in Hnan. done. }
      apply list_elem_of_fmap. exists true. split; [done|].
      apply list_elem_of_fmap. exists (F64.nanmax xs).
      split; [|by apply Hmem]. symmetry. by apply float_eq_refl.
    + intros i x Hi Hnan. rewrite !list_lookup_fmap, Hi. simpl.
      by rewrite float_eq_nan_l.
    + done.
  - rewrite bool_decide_eq_false_2 by done.
    eexists. split; [done|]. split_and!.
    + by rewrite !length_fmap.
    + done.
    + intros i x Hi _. rewrite !list_lookup_fmap, Hi. done.
    + intros _ s [? [-> _]]%list_elem_of_fmap. done.
Qed.

(** ** Text in a percentage column *)






(** ** The count on the page *)

(** X8: two counts are shown as the same text only when they are the same
    count, negative ones included. *)
Theorem dotted_inj (z1 z2 : Z) : dotted z1 = dotted z2 ↔ z1 = z2.
Proof.
  split; [|by intros ->].
  intros Heq. apply (inj (pretty : Z → string)).
  by rewrite <-!dotted_digits, Heq.
Qed.

(** ** An empty catalog *)

Lemma dict_set_nonempty {V : Type} k (v : V) (d : Dict.t V) : Dict.set k v d ≠ [].
Proof. destruct d as [|[k' v'] d]; simpl; [done|]. by case_decide. Qed.

Lemma dict_fill_nonempty (f : list string → string) (l : list (list string))
    (d : Dict.t (list string)) :
  d ≠ [] ∨ l ≠ [] → foldl (λ acc c, Dict.set (f c) c acc) d l ≠ [].
Proof.
  revert d. induction l as [|c l IH]; intros d Hne; simpl.
  - by destruct Hne.
  - apply IH. left. apply dict_set_nonempty.
Qed.

Lemma merge_sort_nil_inv {A : Type} (R : relation A) `{!RelDecision R}
    (l : list A) :
  merge_sort R l = [] → l = [].
Proof.
  intros Hnil. apply Permutation_nil. by rewrite <-Hnil, merge_sort_Permutation.
Qed.

(** X9: the catalog is empty exactly when the directory has no
    subdirectory and no entry whose name ends in [.csv]; the script then
    gives the sidebar warning and stops, without reading a file, building
    a table or looking at the selection. *)
Theorem empty_catalog (base : list string) (ls : list dirent)
    (selected_leagues selected_outcomes : list string) (t : analysis_type)
    (w : world) :
  (get_available_leagues base ls = []
   ↔ filter (λ e, d_is_dir e = true) ls = []
     ∧ filter (λ e, Str.endswith (d_name e) ".csv" = true) ls = [])
  ∧ (get_available_leagues base ls = [] →
     main base ls selected_leagues t selected_outcomes w
     = (Stop,
        World (disk w) (heap w) (cache w) (reads w)
          (page w ++ [SidebarWarning "Nessuna lega trovata nella cartella di analisi. Esegui il modulo prima di aprire la dashboard."]))).
Proof.
  split.
  - unfold get_available_leagues.
    destruct (filter (λ e, d_is_dir e = true) ls) as [|e es] eqn:Hdirs.
    + simpl.
      destruct (filter (λ e, Str.endswith (d_name e) ".csv" = true) ls)
        as [|f fs]; simpl.
      * by split.
      * split; [done|]. by intros [_ ?].
    + split; [|by intros [? _]]. intros Hnil. exfalso.
      eapply dict_fill_nonempty; [|exact Hnil]. right.
      intros Hs. by apply merge_sort_nil_inv in Hs.
  - intros Hnil. unfold main. rewrite Hnil. done.
Qed.

(** ** The league selected when the page opens *)

(** X10: the sidebar's default selection.  For a directory whose entries
    have distinct names and whose catalog is not empty, exactly one league
    is selected when the page opens, and it is a league of the catalog:
    the subdirectory whose name comes first in string order when there are
    subdirectories, the league [default] otherwise. *)
Theorem default_league_least (base : list string) (ls : list dirent) :
  NoDup (d_name <$> ls) →
  let available_leagues := get_available_leagues base ls in
  let subdirs := d_name <$> filter (λ e, d_is_dir e = true) ls in
  available_leagues ≠ [] →
  ∃ league,
    default_leagues available_leagues = [league]
    ∧ league ∈ Dict.keys available_leagues
    ∧ (subdirs ≠ [] →
         league ∈ subdirs ∧ ∀ name, name ∈ subdirs → String.le league name)
    ∧ (subdirs = [] → league = "default").
Proof.
  intros Hnd available_leagues subdirs Hne.
  destruct (decide (subdirs = [])) as [Hnil|Hsub].
  - exists "default". apply fmap_nil_inv in Hnil.
    unfold available_leagues, get_available_leagues in *.
    rewrite Hnil in *. simpl in *.
    destruct (filter (λ e, Str.endswith (d_name e) ".csv" = true) ls);
      simpl in *; [done|].
    split; [done|]. split; [by apply list_elem_of_singleton|].
    split; [|done]. intros Hsub. exfalso. apply Hsub.
    unfold subdirs. by rewrite Hnil.
  - assert (Hl : available_leagues
                 = (λ n, (n, base /: n)) <$> merge_sort String.le subdirs).
    { apply get_available_leagues_subdirs; [done|].
      intros Hnil. apply Hsub. unfold subdirs. by rewrite Hnil. }
    assert (Hk : Dict.keys available_leagues = merge_sort String.le subdirs).
    { unfold Dict.keys. rewrite Hl, <-list_fmap_compose. apply list_fmap_id. }
    assert (Hperm : merge_sort String.le subdirs ≡ₚ subdirs)
      by apply merge_sort_Permutation.
    assert (Hsorted : StronglySorted String.le (merge_sort String.le subdirs))
      by (apply StronglySorted_merge_sort; apply _).
    unfold default_leagues. rewrite Hk.
    destruct (merge_sort String.le subdirs) as [|league rest].
    { by apply Permutation_nil in Hperm. }
    exists league. split_and!; [done|by left| |done].
    intros _. split.
    + rewrite <-Hperm. by left.
    + intros name Hname. rewrite <-Hperm in Hname.
      apply StronglySorted_inv in Hsorted as [_ Hall].
      apply elem_of_cons in Hname as [->|Hin]; [done|].
      by eapply Forall_forall in Hall.
Qed.

(** ** Which files a session parses *)

(** X11: in a session that started with nothing loaded, after any number
    of renders with any choices, every file that was parsed exists, is the
    analysis file of a league selected in one of the renders, at the
    granularity chosen in that render, and was parsed once: no render
    parses a file again, and a file of a league that was never selected,
    or a CSV file that lies beside the league directories, is not parsed. *)
Theorem renders_read_selected (base : list string) (ls : list dirent)
    (choices : list (list string * analysis_type * list string))
    (files : gmap (list string) DataFrame) :
  let w := after_renders base ls choices (fresh_session files) in
  NoDup (reads w)
  ∧ ∀ path, path ∈ reads w →
      is_Some (files !! path) ∧ selected_file base ls choices path.
Proof.
  intros w.
  assert (Hgen : ∀ cs w0,
    cs ⊆ choices →
    reads_grow (selected_file base ls choices) w0 (after_renders base ls cs w0)).
  { induction cs as [|c cs IH]; intros w0 Hsub; [reflexivity|].
    change (after_renders base ls (c :: cs) w0)
      with (after_renders base ls cs (main base ls c.1.1 c.1.2 c.2 w0).2).
    etrans; [|apply IH; intros x Hx; apply Hsub; by right].
    apply reads_grow_main. intros league path Hl Hfile.
    exists c, league. split_and!; [|done..]. apply Hsub. by left. }
  destruct (Hgen choices (fresh_session files)) as [_ Hgrow]; [done|].
  destruct Hgrow as [[_ Hnd] Hin].
  { split; [|apply NoDup_nil_2]. intros p. simpl.
    rewrite lookup_empty, elem_of_nil. split; [done|]. by intros [? ?]. }
  split; [exact Hnd|]. intros path Hpath.
  destruct (Hin path Hpath) as [Hnil|[? ?]]; [|done].
  simpl in Hnil. by apply elem_of_nil in Hnil.
Qed.

(** ** A render on the tables of the analysis module *)









(* ===================================================================== *)
(** * Part V: the further properties at sample inputs                     *)
(* ===================================================================== *)

Lemma get_available_leagues_order_sample :
  Sample.listing ≡ₚ reverse Sample.listing
  ∧ get_available_leagues Sample.base Sample.listing
    = get_available_leagues Sample.base (reverse Sample.listing).
Proof.
  assert (Hperm : Sample.listing ≡ₚ reverse Sample.listing).
  { symmetry. apply reverse_Permutation. }
  split; [exact Hperm|].
  exact (get_available_leagues_order Sample.base _ _ Hperm).
Defined.

Lemma league_column_first_sample :
  [("SerieA", Sample.season_2023)] ≠ []
  ∧ ∃ out d' w' rest,
      reorder_columns Stagione ["over_25"] 0
        (World ∅ {[0%nat := DF.concat [tagged "SerieA" Sample.season_2023]]}
               ∅ [] [])
      = (Ok out, w')
      ∧ heap w' !! out = Some d'
      ∧ DF.columns d' = "league" :: rest
      ∧ "league" ∉ rest.
Proof.
  split; [done|].
  apply (league_column_first Stagione ["over_25"]
           [("SerieA", Sample.season_2023)] 0); [done|].
  by vm_compute.
Defined.


Lemma default_league_least_sample :
  NoDup (d_name <$> Sample.listing)
  ∧ get_available_leagues Sample.base Sample.listing ≠ []
  ∧ ∃ league,
      default_leagues (get_available_leagues Sample.base Sample.listing)
      = [league]
      ∧ league ∈ ["SerieB"; "SerieA"]
      ∧ ∀ name, name ∈ ["SerieB"; "SerieA"] → String.le league name.
Proof.
  assert (Hnd : NoDup (d_name <$> Sample.listing)).
  { apply (bool_decide_unpack _). by vm_compute. }
  assert (Hne : get_available_leagues Sample.base Sample.listing ≠ [])
    by (by vm_compute).
  split; [exact Hnd|]. split; [exact Hne|].
  destruct (default_league_least Sample.base Sample.listing Hnd Hne)
    as (league & Hdef & _ & Hsub & _).
  exists league. split; [exact Hdef|]. by apply Hsub.
Defined.

